(** * MDAP: voting protocol and the Tower of Hanoi demo loop

    A shallow embedding of the step-by-step driver [run] of
    [examples/mdap/src/mdap/demo_machine.py] together with models of the
    MDAP components it drives (vote aggregation, move validation,
    configuration and metrics).  The driver is translated from the Python
    source.  The components live in modules the driver only imports
    ([mdap.hooks], [declarative_mdap.mdap]); they are modelled from the
    design document, and every such definition says so. *)

From Stdlib Require Import ZArith.
From stdpp Require Import gmap strings list fin_maps sorting.

Local Open Scope Z_scope.

(** ** Data of the reference domain *)

(** A peg holds its disks bottom first, so the topmost disk is the last
    element: the initial state of the demo is [[3, 2, 1], [], []]. *)
Abbreviation Peg := (list Z).
Abbreviation Pegs := (list (list Z)).

(** ** Errors

    A Python call either returns a value or raises; the only exception the
    modelled code raises itself is the [ValueError] of a rejected
    configuration. *)
Inductive Raises (A : Type) :=
  | Returns (a : A)
  | ValueError (msg : string).
Arguments Returns {A} a.
Arguments ValueError {A} msg.

(** ** StateCodec *)

(** Modelled from the spec: the codec contract of section 4.1, a total and
    deterministic [canonicalize] into comparable keys together with the
    domain equality [equals]. *)
Class StateCodec (State Key : Type) := {
  canonicalize : State → Key;
  equals : State → State → bool
}.

(** ** Candidates at the predictor boundary *)

(** Modelled from the spec: the structured candidate of the predictor
    boundary (section 6), the proposed move and the claimed next state,
    either of which may be missing from a malformed answer. *)
Record RawCandidate (State Move : Type) := {
  cand_move : option Move;
  cand_state : option State
}.
Arguments cand_move {State Move} r.
Arguments cand_state {State Move} r.

(** Modelled from the spec: the verdict of a MoveValidator (section 4.2),
    [valid] or [invalid(reason)]. *)
Inductive Validity :=
  | valid
  | invalid (reason : string).

Definition malformed_output : string := "malformed_output".

(** ** The peg-and-disk domain: codec and MoveValidator *)

Module Hanoi.

(** Modelled from the spec: a move of the reference domain names the disk
    and the two pegs. *)
Record HanoiMove := {
  disk : Z;
  from_peg : nat;
  to_peg : nat
}.

(** Modelled from the spec: performing a move pops the top of the source
    peg and pushes the disk on the destination. *)
Definition apply_move (ps : Pegs) (m : HanoiMove) : Pegs :=
  alter (λ p, p ++ [disk m]) (to_peg m)
        (alter (λ p, removelast p) (from_peg m) ps).

Definition larger_first : relation Z := λ a b, b ≤ a.

#[global] Instance larger_first_dec : RelDecision larger_first.
Proof. intros a b. unfold larger_first. apply _. Defined.

(** Modelled from the spec: the codec of the reference domain.  A legal peg
    is ordered largest disk first, so the order in which a predictor lists
    the disks of a peg is an artifact of its output; the canonical key lists
    every peg largest disk first. *)
Definition canonical_pegs (ps : Pegs) : Pegs :=
  merge_sort larger_first <$> ps.

#[global] Instance hanoi_codec : StateCodec Pegs Pegs := {|
  canonicalize := canonical_pegs;
  equals a b := bool_decide (canonical_pegs a = canonical_pegs b)
|}.

(** Modelled from the spec: the fixed set of rejection reasons. *)
Definition illegal_source : string := "illegal_source".
Definition illegal_destination : string := "illegal_destination".
Definition state_mismatch : string := "state_mismatch".

Definition validation_reasons : list string :=
  [illegal_source; illegal_destination; state_mismatch; malformed_output].

(** The destination takes the disk when it is empty or when its topmost
    disk is strictly larger. *)
Definition destination_accepts (dst : Peg) (d : Z) : bool :=
  match last dst with
  | None => true
  | Some t => bool_decide (d < t)
  end.

Section Validator.
Context {Key : Type} `{StateCodec Pegs Key}.

(** Modelled from the spec: [validate(previous_state, candidate)] of
    section 4.2 for the peg-and-disk domain.  The conditions (a) to (d)
    are checked in that order; an answer without a move or without a next
    state is malformed. *)
Definition validate (previous_state : Pegs)
    (c : RawCandidate Pegs HanoiMove) : Validity :=
  match cand_move c, cand_state c with
  | Some m, Some claimed =>
      match previous_state !! from_peg m ≫= last with
      | None => invalid illegal_source
      | Some top =>
          if bool_decide (top = disk m) then
            match previous_state !! to_peg m with
            | None => invalid illegal_destination
            | Some dst =>
                if destination_accepts dst (disk m) then
                  if equals claimed (apply_move previous_state m)
                  then valid
                  else invalid state_mismatch
                else invalid illegal_destination
            end
          else invalid illegal_source
      end
  | _, _ => invalid malformed_output
  end.
End Validator.

End Hanoi.

(** ** VotingAggregator *)

Module Voting.

Section Aggregator.
Context {State Move Key : Type} `{Countable Key}.

(** Modelled from the spec: the candidate of section 9, a tagged variant
    resolved at validation time. *)
Inductive Candidate :=
  | Valid (state : State) (move : Move) (key : Key)
  | Invalid (reason : string).

(** Modelled from the spec: [tally(candidates)] of section 4.4, the mapping
    from canonical key to the number of valid candidates sharing that key;
    [count_vote] adds one candidate to it. *)
Definition count_vote (t : gmap Key Z) (c : Candidate) : gmap Key Z :=
  match c with
  | Valid _ _ k => <[k := default 0 (t !! k) + 1]> t
  | Invalid _ => t
  end.

Definition tally (cands : list Candidate) : gmap Key Z :=
  foldl count_vote ∅ cands.

(** Keys are ranked by count, highest first. *)
Definition by_count_desc : relation (Key * Z) := λ a b, b.2 ≤ a.2.

#[global] Instance by_count_desc_dec : RelDecision by_count_desc.
Proof. intros a b. unfold by_count_desc. apply _. Defined.

Definition ranked (t : gmap Key Z) : list (Key * Z) :=
  merge_sort by_count_desc (map_to_list t).

(** Modelled from the spec: [decide(tally, k_margin)], returning the
    winning key, the margin and the confidence.  The winner is the first
    key of the ranking, the margin is its count minus the count of the
    second key (0 when there is no second key), and the decision is
    confident when the margin reaches [k_margin].  An empty tally has no
    winner and is inconclusive. *)
Definition decide (t : gmap Key Z) (k_margin : Z) : option Key * Z * bool :=
  match ranked t with
  | [] => (None, 0, false)
  | (w, c1) :: rest =>
      let c2 := match rest with [] => 0 | (_, c) :: _ => c end in
      let margin := c1 - c2 in
      (Some w, margin, bool_decide (k_margin ≤ margin))
  end.

(** The second-highest count as the claim words it: the largest count
    among the keys other than [w], and 0 when [w] is the only key. *)
Definition second_count (t : gmap Key Z) (w : Key) : Z :=
  foldr Z.max 0 (map_to_list (delete w t)).*2.

End Aggregator.

Arguments Candidate : clear implicits.

End Voting.

(** ** MDAPConfig, MDAPMetrics and the orchestrator *)

Module MDAP.
Import Voting.

(** Modelled from the spec: the configuration of section 3. *)
Record MDAPConfig := {
  k_margin : Z;
  max_candidates : Z;
  batch_escalation_size : option Z
}.

(** Modelled from the spec: the constructor of [MDAPConfig], a class that
    [declarative_mdap/__init__.py] imports from [declarative_mdap.mdap].  It
    rejects non-positive values and a cap below the margin (sections 3, 6
    and 7). *)
Definition new_MDAPConfig (k m : Z) (b : option Z) : Raises MDAPConfig :=
  if bool_decide (k ≤ 0) then ValueError "k_margin must be positive"
  else if bool_decide (m ≤ 0) then ValueError "max_candidates must be positive"
  else if from_option (λ x, bool_decide (x ≤ 0)) false b
  then ValueError "batch_escalation_size must be positive"
  else if bool_decide (m < k)
  then ValueError "max_candidates must be at least k_margin"
  else Returns {| k_margin := k; max_candidates := m;
                  batch_escalation_size := b |}.

(** Modelled from the spec: the metrics of section 3. *)
Record MDAPMetrics := {
  total_samples : Z;
  samples_per_step : list Z;
  total_red_flags : Z;
  red_flags_by_reason : gmap string Z
}.

Definition empty_metrics : MDAPMetrics :=
  {| total_samples := 0; samples_per_step := [];
     total_red_flags := 0; red_flags_by_reason := ∅ |}.

(** Modelled from the spec: step 8 of section 4.5, the two updates of the
    metrics. *)
Definition record_step (n : Z) (m : MDAPMetrics) : MDAPMetrics :=
  {| total_samples := total_samples m + n;
     samples_per_step := samples_per_step m ++ [n];
     total_red_flags := total_red_flags m;
     red_flags_by_reason := red_flags_by_reason m |}.

Definition record_red_flag (reason : string) (m : MDAPMetrics) : MDAPMetrics :=
  {| total_samples := total_samples m;
     samples_per_step := samples_per_step m;
     total_red_flags := total_red_flags m + 1;
     red_flags_by_reason :=
       <[reason := default 0 (red_flags_by_reason m !! reason) + 1]>
         (red_flags_by_reason m) |}.

(** Python's [sum] over a list and over the values of a dict. *)
Definition sum_list (l : list Z) : Z := foldl Z.add 0 l.
Definition sum_values (d : gmap string Z) : Z :=
  map_fold (λ _ v acc, acc + v) 0 d.

(** The invariant of section 3 on a metrics snapshot. *)
Definition metrics_consistent (m : MDAPMetrics) : Prop :=
  sum_list (samples_per_step m) = total_samples m ∧
  sum_values (red_flags_by_reason m) = total_red_flags m.

Definition no_valid_candidates : string := "no_valid_candidates".
Definition low_confidence : string := "low_confidence".
Definition tie : string := "tie".

(** Modelled from the spec: the decision of section 3 and the reasons a
    decision is flagged with (section 4.5, step 6). *)
Record Decision (State Move : Type) := {
  winning_state : option State;
  winning_move : option Move;
  vote_count : Z;
  margin : Z;
  confident : bool;
  red_flag : option string
}.
Arguments winning_state {State Move} d.
Arguments winning_move {State Move} d.
Arguments vote_count {State Move} d.
Arguments margin {State Move} d.
Arguments confident {State Move} d.
Arguments red_flag {State Move} d.

(** Modelled from the spec: the orchestrator owns its configuration and
    its metrics (section 9). *)
Record Orchestrator := {
  config : MDAPConfig;
  metrics : MDAPMetrics
}.

(** Modelled from the spec: an orchestrator exists only for a configuration
    that passed validation, and starts with empty metrics. *)
Definition create_orchestrator_from_config (k m : Z) (b : option Z)
    : Raises Orchestrator :=
  match new_MDAPConfig k m b with
  | ValueError e => ValueError e
  | Returns cfg => Returns {| config := cfg; metrics := empty_metrics |}
  end.

(** Modelled from the spec: the read-only snapshot of the metrics
    surface (section 6). *)
Definition get_metrics (o : Orchestrator) : MDAPMetrics := metrics o.

Section Orchestrator.
Context {State Move Key P : Type} `{Countable Key} `{!StateCodec State Key}.

(** The domain plug-in and the predictor are parameters: one call of
    [predict] either yields a raw candidate or fails ([None]: timeout or
    unreadable answer), and advances the predictor's own state. *)
Variable validate : State → RawCandidate State Move → Validity.
Variable predict : P → State → option (RawCandidate State Move) * P.

(** Modelled from the spec: [sample(context, n)] of section 4.3; a failed
    call yields no candidate and does not abort the batch. *)
Fixpoint sample (p : P) (ctx : State) (n : nat)
    : list (RawCandidate State Move) * P :=
  match n with
  | O => ([], p)
  | S n' =>
      let '(r, p1) := predict p ctx in
      let '(rs, p2) := sample p1 ctx n' in
      (from_option (λ c, [c]) [] r ++ rs, p2)
  end.

(** Modelled from the spec: step 2 of section 4.5, a raw candidate is
    resolved at validation time. *)
Definition to_candidate (prev : State) (raw : RawCandidate State Move)
    : Candidate State Move Key :=
  match validate prev raw with
  | invalid r => Invalid r
  | valid =>
      match cand_state raw, cand_move raw with
      | Some s, Some m => Valid s m (canonicalize s)
      | _, _ => Invalid malformed_output
      end
  end.

Definition batch_size (cfg : MDAPConfig) : Z :=
  default 1 (batch_escalation_size cfg).

(** Modelled from the spec: batches have the escalation size (1 when none
    is configured) and never cross the cap. *)
Definition next_batch (cfg : MDAPConfig) (n : Z) : Z :=
  Z.min (batch_size cfg) (max_candidates cfg - n).

(** Modelled from the spec: steps 3 to 5 of section 4.5.  Tally the
    candidates validated so far and stop when the decision is confident or
    the cap is reached, otherwise sample another batch.  Every escalation
    issues at least one call, so [max_candidates] rounds of fuel are never
    used up. *)
Fixpoint escalate (fuel : nat) (cfg : MDAPConfig) (prev : State)
    (cands : list (Candidate State Move Key)) (n : Z) (p : P)
    : list (Candidate State Move Key) * Z * P :=
  if (decide (tally cands) (k_margin cfg)).2
     || bool_decide (n = max_candidates cfg)
  then (cands, n, p)
  else
    match fuel with
    | O => (cands, n, p)
    | S fuel' =>
        let b := next_batch cfg n in
        let '(raws, p') := sample p prev (Z.to_nat b) in
        escalate fuel' cfg prev (cands ++ (to_candidate prev <$> raws))
                 (n + b) p'
    end.

(** Modelled from the spec: steps 1 to 5 of one decision point. *)
Definition sample_step (cfg : MDAPConfig) (prev : State) (p : P)
    : list (Candidate State Move Key) * Z * P :=
  let b := next_batch cfg 0 in
  let '(raws, p1) := sample p prev (Z.to_nat b) in
  escalate (Z.to_nat (max_candidates cfg)) cfg prev
           (to_candidate prev <$> raws) b p1.

(** Modelled from the spec: the state and move behind a winning key are
    those of the first valid candidate in that bucket. *)
Definition in_bucket (w : Key) (c : Candidate State Move Key)
    : option (State * Move) :=
  match c with
  | Valid s m k => if bool_decide (k = w) then Some (s, m) else None
  | Invalid _ => None
  end.

Definition winner_of (cands : list (Candidate State Move Key)) (w : Key)
    : option (State * Move) :=
  head (omap (in_bucket w) cands).

(** Modelled from the spec: step 6 of section 4.5, the red flag of a
    decision and the decision emitted. *)
Definition red_flag_of (t : gmap Key Z) (margin : Z) (confident : bool)
    : option string :=
  if confident then None
  else if bool_decide (t = ∅) then Some no_valid_candidates
  else if bool_decide (margin = 0) then Some tie
  else Some low_confidence.

Definition emit (cfg : MDAPConfig) (cands : list (Candidate State Move Key))
    : Decision State Move :=
  let t := tally cands in
  let '(w, mg, conf) := decide t (k_margin cfg) in
  let win := w ≫= winner_of cands in
  {| winning_state := fst <$> win;
     winning_move := snd <$> win;
     vote_count := default 0 (w ≫= (t !!.));
     margin := mg;
     confident := conf;
     red_flag := red_flag_of t mg conf |}.

Definition invalid_reason (c : Candidate State Move Key) : option string :=
  match c with
  | Valid _ _ _ => None
  | Invalid r => Some r
  end.

(** Modelled from the spec: steps 2 and 8 of section 4.5.  The samples of
    the step are added, every rejected candidate is counted under its reason
    (section 7, validation failure), and so is a flagged decision. *)
Definition update_metrics (m : MDAPMetrics) (n : Z)
    (cands : list (Candidate State Move Key)) (d : Decision State Move)
    : MDAPMetrics :=
  let m1 := record_step n m in
  let m2 := foldl (λ acc r, record_red_flag r acc) m1
                  (omap invalid_reason cands) in
  match red_flag d with
  | Some r => record_red_flag r m2
  | None => m2
  end.

(** Modelled from the spec: the per-step algorithm of section 4.5. *)
Definition orchestrator_step (o : Orchestrator) (p : P) (prev : State)
    : Decision State Move * Orchestrator * P :=
  let '(cands, n, p') := sample_step (config o) prev p in
  let d := emit (config o) cands in
  (d, {| config := config o;
         metrics := update_metrics (metrics o) n cands d |}, p').

(** Modelled from the spec: a sequence of steps, one per decision
    context. *)
Fixpoint steps (o : Orchestrator) (p : P) (ctxs : list State)
    : list (Decision State Move) * Orchestrator * P :=
  match ctxs with
  | [] => ([], o, p)
  | c :: ctxs' =>
      let '(d, o1, p1) := orchestrator_step o p c in
      let '(ds, o2, p2) := steps o1 p1 ctxs' in
      (d :: ds, o2, p2)
  end.

(** Modelled from the spec: construction followed by a sequence of steps;
    a configuration error prevents the run from starting (section 7). *)
Definition orchestrate (k m : Z) (b : option Z) (p : P) (ctxs : list State)
    : Raises (list (Decision State Move) * Orchestrator) * P :=
  match create_orchestrator_from_config k m b with
  | ValueError e => (ValueError e, p)
  | Returns o =>
      let '(ds, o', p') := steps o p ctxs in (Returns (ds, o'), p')
  end.

End Orchestrator.

End MDAP.

(** ** The demo driver: [run] of [demo_machine.py] *)

Module Demo.
Import MDAP.

(** The [hanoi] entry of the agent metadata; either setting may be absent. *)
Record HanoiSettings := {
  cfg_initial_pegs : option Pegs;
  cfg_goal_pegs : option Pegs
}.

Definition default_initial_pegs : Pegs := [[3; 2; 1]; []; []].
Definition default_goal_pegs : Pegs := [[]; [3; 2; 1]; []].

(** The fixed step budget of the [while] loop. *)
Definition step_budget : Z := 20.

Section Run.
Context {Move VS : Type}.

(** The [context] dict of [run]. *)
Record Context := {
  pegs : Pegs;
  goal : Pegs;
  previous_move : option Move;
  step : Z;
  solved : bool
}.

(** An entry of [trace]; the first entry has no ['move'] key, the later ones
    have one, whose value may be [None]. *)
Record TraceEntry := {
  t_pegs : Pegs;
  t_step : Z;
  t_move : option (option Move)
}.

(** The [input_data] dict handed to the voting call. *)
Record VotingInput := {
  in_pegs : Pegs;
  in_previous_move : option Move
}.

(** The dict a voting call returns, as far as [run] reads it: the value under
    ['predicted_state'] when that key is present, and [result.get('move')]. *)
Record Result := {
  predicted_state : option Pegs;
  move : option Move
}.

(** [mdap_hooks.voting_call(agent, input_data)] and
    [mdap_hooks.get_metrics()] belong to [mdap.hooks]; [run] is parameterised
    by them.  [VS] is the state of the hooks and the agent, which a voting
    call may change; a call returns [None] or a result dict, and leaves the
    list of pegs it was handed as it is. *)
Variable voting_call : VS → VotingInput → option Result * VS.
Variable hooks_metrics : VS → MDAPMetrics.

(** [[list(p) for p in pegs]]: a fresh copy of every peg. *)
Definition copy_pegs (ps : Pegs) : Pegs := (λ p : Peg, p) <$> ps.

(** The test [context['pegs'] == context['goal']]: Python's equality of
    nested lists of integers. *)
Definition goal_reached (ctx : Context) : bool :=
  bool_decide (pegs ctx = goal ctx).

(** How one execution of the loop body ends. *)
Inductive Flow :=
  | Break (ctx : Context) (trace : list TraceEntry) (vs : VS)
  | Continue (ctx : Context) (trace : list TraceEntry) (vs : VS).

(** [context['solved'] = True]. *)
Definition mark_solved (ctx : Context) : Context :=
  {| pegs := pegs ctx; goal := goal ctx; previous_move := previous_move ctx;
     step := step ctx; solved := true |}.

(** The three assignments under [# Update context]: the pegs become the
    predicted state when the result has one and stay as they are otherwise. *)
Definition update_context (ctx : Context) (r : Result) : Context :=
  {| pegs := default (pegs ctx) (predicted_state r);
     goal := goal ctx;
     previous_move := move r;
     step := step ctx + 1;
     solved := solved ctx |}.

(** The entry appended to the trace after a step. *)
Definition trace_entry (ctx : Context) : TraceEntry :=
  {| t_pegs := copy_pegs (pegs ctx); t_step := step ctx;
     t_move := Some (previous_move ctx) |}.

(** The body of the [while] loop. *)
Definition loop_body (ctx : Context) (trace : list TraceEntry) (vs : VS)
    : Flow :=
  if goal_reached ctx then Break (mark_solved ctx) trace vs
  else
    let input_data := {| in_pegs := pegs ctx;
                         in_previous_move := previous_move ctx |} in
    let '(result, vs') := voting_call vs input_data in
    match result with
    | None => Break ctx trace vs'
    | Some r =>
        let ctx' := update_context ctx r in
        Continue ctx' (trace ++ [trace_entry ctx']) vs'
    end.

(** [while context['step'] < 20: ...].  One unit of fuel is spent on every
    execution of the body; [None] means the fuel ran out while the loop
    condition still held. *)
Fixpoint run_loop (fuel : nat) (ctx : Context) (trace : list TraceEntry)
    (vs : VS) : option (Context * list TraceEntry * VS) :=
  if bool_decide (step ctx < step_budget) then
    match fuel with
    | O => None
    | S fuel' =>
        match loop_body ctx trace vs with
        | Break ctx' trace' vs' => Some (ctx', trace', vs')
        | Continue ctx' trace' vs' => run_loop fuel' ctx' trace' vs'
        end
    end
  else Some (ctx, trace, vs).

(** What [run] reports once the loop is over. *)
Record Report := {
  r_trace : list TraceEntry;
  r_final_state : Pegs;
  r_solved : bool;
  r_total_steps : Z;
  r_metrics : MDAPMetrics
}.

Definition initial_context (hanoi_config : HanoiSettings) : Context :=
  let initial_pegs := default default_initial_pegs
                              (cfg_initial_pegs hanoi_config) in
  let goal_pegs := default default_goal_pegs (cfg_goal_pegs hanoi_config) in
  {| pegs := copy_pegs initial_pegs; goal := goal_pegs;
     previous_move := None; step := 0; solved := false |}.

Definition initial_trace (ctx : Context) : list TraceEntry :=
  [{| t_pegs := copy_pegs (pegs ctx); t_step := 0; t_move := None |}].

Definition report (out : Context * list TraceEntry * VS) : Report :=
  let '(ctx, trace, vs) := out in
  {| r_trace := trace; r_final_state := pegs ctx; r_solved := solved ctx;
     r_total_steps := step ctx; r_metrics := hooks_metrics vs |}.

(** [run()], with the loop given [fuel] executions of its body. *)
Definition run_with (fuel : nat) (hanoi_config : HanoiSettings) (vs : VS)
    : option Report :=
  let ctx := initial_context hanoi_config in
  report <$> run_loop fuel ctx (initial_trace ctx) vs.

Definition run (hanoi_config : HanoiSettings) (vs : VS) : option Report :=
  run_with (Z.to_nat step_budget) hanoi_config vs.

End Run.

Arguments Context : clear implicits.
Arguments TraceEntry : clear implicits.
Arguments VotingInput : clear implicits.
Arguments Result : clear implicits.
Arguments Report : clear implicits.
Arguments Flow : clear implicits.

End Demo.

(** ** The hooks behind the demo, and a perfect predictor *)

Module Hooks.
Import MDAP Demo.

Section VotingCall.
Context {Move Key P : Type} `{Countable Key} `{!StateCodec Pegs Key}.
Variable validate : Pegs → RawCandidate Pegs Move → Validity.
Variable predict : P → Pegs → option (RawCandidate Pegs Move) * P.

(** Modelled from the spec: the voting call of the hooks, one orchestrator
    step on the current pegs.  The result carries the winning state and move
    (section 4.5, step 7: the leader is applied even when the decision is
    flagged); there is no result when no candidate was valid. *)
Definition voting_call (vs : Orchestrator * P) (input : VotingInput Move)
    : option (Result Move) * (Orchestrator * P) :=
  let '(d, o', p') :=
    orchestrator_step validate predict vs.1 vs.2 (in_pegs input) in
  (match winning_state d with
   | Some s => Some {| predicted_state := Some s; move := winning_move d |}
   | None => None
   end, (o', p')).

Definition hooks_metrics (vs : Orchestrator * P) : MDAPMetrics :=
  get_metrics vs.1.

(** Hooks configured with [cfg] that have no red flag on record. *)
Definition unflagged (cfg : MDAPConfig) (vs : Orchestrator * P) : Prop :=
  config vs.1 = cfg ∧
  total_red_flags (metrics vs.1) = 0 ∧
  red_flags_by_reason (metrics vs.1) = ∅.

End VotingCall.

End Hooks.

Module Perfect.
Import Hanoi.

(** Modelled from the spec: the known optimal solution of the puzzle with
    [n] disks, which has 7 moves for 3 disks. *)
Fixpoint hanoi_solution (n : nat) (src dst aux : nat) : list HanoiMove :=
  match n with
  | O => []
  | S n' =>
      hanoi_solution n' src aux dst
      ++ {| disk := Z.of_nat n; from_peg := src; to_peg := dst |}
         :: hanoi_solution n' aux dst src
  end.

(** The states the solution visits, each with the move that leaves it and
    the state that move leads to. *)
Fixpoint optimal_path (s : Pegs) (moves : list HanoiMove)
    : list (Pegs * HanoiMove * Pegs) :=
  match moves with
  | [] => []
  | m :: moves' =>
      let s' := apply_move s m in (s, m, s') :: optimal_path s' moves'
  end.

Definition reference_path : list (Pegs * HanoiMove * Pegs) :=
  optimal_path Demo.default_initial_pegs (hanoi_solution 3 0 1 2).

(** Modelled from the spec: a perfect predictor.  On a state of the optimal
    path it always answers with the optimal move and the state it leads
    to. *)
Definition perfect_predict (_ : unit) (s : Pegs)
    : option (RawCandidate Pegs HanoiMove) * unit :=
  (match list_find (λ e, e.1.1 = s) reference_path with
   | Some (_, (_, m, s')) =>
       Some {| cand_move := Some m; cand_state := Some s' |}
   | None => None
   end, tt).

(** Two unreliable predictors for the initial state: one wavers between the
    two legal first moves, the other never answers. *)
Definition wavering_predict (flip : bool) (_ : Pegs)
    : option (RawCandidate Pegs HanoiMove) * bool :=
  (Some (if flip
         then {| cand_move := Some {| disk := 1; from_peg := 0; to_peg := 1 |};
                 cand_state := Some [[3; 2]; [1]; []] |}
         else {| cand_move := Some {| disk := 1; from_peg := 0; to_peg := 2 |};
                 cand_state := Some [[3; 2]; []; [1]] |}),
   negb flip).

Definition silent_predict (u : unit) (_ : Pegs)
    : option (RawCandidate Pegs HanoiMove) * unit := (None, u).

(** The same predictor with a counter of the calls it has served. *)
Definition counting_predict (calls : nat) (s : Pegs)
    : option (RawCandidate Pegs HanoiMove) * nat :=
  ((perfect_predict () s).1, S calls).

End Perfect.

(** ** Sample inputs *)

Module Samples.
Import Voting Demo.

(** Two small candidate sets over string keys: three votes, two of them for
    ["a"]; and two votes, one for each key. *)
Definition split_vote : list (Candidate unit unit string) :=
  [Valid () () "a"; Valid () () "b"; Valid () () "a"].

Definition tied_vote : list (Candidate unit unit string) :=
  [Valid () () "a"; Valid () () "b"].

(** A voting call that never has a valid response, and one whose results
    carry neither a predicted state nor a move. *)
Definition silent_voting (vs : unit) (_ : VotingInput unit)
    : option (Result unit) * unit := (None, vs).

Definition idle_voting (vs : unit) (_ : VotingInput unit)
    : option (Result unit) * unit :=
  (Some {| predicted_state := None; move := None |}, vs).

(** A voting call whose results always carry a predicted state, the first
    move of the optimal solution applied to the default initial pegs, and a
    move. *)
Definition advancing_voting (vs : unit) (_ : VotingInput unit)
    : option (Result unit) * unit :=
  (Some {| predicted_state := Some [[3; 2]; [1]; []]; move := Some () |}, vs).

Definition no_metrics (_ : unit) : MDAP.MDAPMetrics := MDAP.empty_metrics.

Definition default_settings : HanoiSettings :=
  {| cfg_initial_pegs := None; cfg_goal_pegs := None |}.

(** The goal of the demo with the disks of the middle peg listed smallest
    first. *)
Definition goal_listed_top_first : Pegs := [[]; [1; 2; 3]; []].

End Samples.

(** ** Observing the voting calls of a run *)

Module Probe.
Import Demo.

Section Probe.
Context {Move VS : Type}.
Variable voting_call : VS → VotingInput Move → option (Result Move) * VS.

(** The same voting call, keeping beside its own state the log of the
    inputs it was called with, oldest first.  The log is an observer: it does
    not change what the call returns. *)
Definition logged (s : VS * list (VotingInput Move))
    (input_data : VotingInput Move)
    : option (Result Move) * (VS * list (VotingInput Move)) :=
  let '(result, vs') := voting_call s.1 input_data in
  (result, (vs', s.2 ++ [input_data])).

(** The input a trace entry stands for: its pegs, and its move when it has
    one. *)
Definition entry_input (e : TraceEntry Move) : VotingInput Move :=
  {| in_pegs := t_pegs e; in_previous_move := default None (t_move e) |}.

End Probe.

(** A voting call over one-peg states that always predicts the state with
    every disk number raised by one, and settings whose goal is exactly a
    budget of such steps away. *)
Definition ticking_voting (vs : unit) (input_data : VotingInput unit)
    : option (Result unit) * unit :=
  (Some {| predicted_state :=
             Some ((λ p : Peg, Z.succ <$> p) <$> in_pegs input_data);
           move := None |}, vs).

Definition ticking_settings : HanoiSettings :=
  {| cfg_initial_pegs := Some [[0]]; cfg_goal_pegs := Some [[20]] |}.


(** Settings under which the run starts at its goal. *)
Definition solved_settings : HanoiSettings :=
  {| cfg_initial_pegs := Some default_goal_pegs; cfg_goal_pegs := None |}.

End Probe.

(** * Properties *)

(** ** The ranking behind [decide] *)

Module VotingFacts.
Import Voting.

Section Ranking.
Context {State Move Key : Type} `{Countable Key}.

#[local] Instance by_count_desc_total : Total (by_count_desc (Key:=Key)).
Proof. intros a b. unfold by_count_desc. lia. Qed.

#[local] Instance by_count_desc_trans : Transitive (by_count_desc (Key:=Key)).
Proof. intros a b c. unfold by_count_desc. lia. Qed.

Lemma ranked_perm (t : gmap Key Z) : ranked t ≡ₚ map_to_list t.
Proof. apply merge_sort_Permutation. Qed.

Lemma ranked_sorted (t : gmap Key Z) :
  StronglySorted by_count_desc (ranked t).
Proof. apply StronglySorted_merge_sort; apply _. Qed.

Lemma elem_of_ranked (t : gmap Key Z) w c :
  (w, c) ∈ ranked t ↔ t !! w = Some c.
Proof. rewrite ranked_perm. apply elem_of_map_to_list. Qed.

(** The head of the ranking carries a largest count, and the rest of the
    ranking is the ranking of the other keys. *)
Lemma ranked_cons (t : gmap Key Z) w c rest :
  ranked t = (w, c) :: rest →
  t !! w = Some c ∧
  Forall (λ e, e.2 ≤ c) rest ∧
  StronglySorted by_count_desc rest ∧
  rest ≡ₚ map_to_list (delete w t).
Proof.
  intros E.
  assert (Hw : t !! w = Some c).
  { apply elem_of_ranked. rewrite E. left. }
  pose proof (ranked_sorted t) as S. rewrite E in S.
  apply StronglySorted_inv in S as [S1 S2].
  repeat split; try done.
  apply (Permutation_cons_inv (a:=(w, c))).
  rewrite <- E, ranked_perm. symmetry. by apply map_to_list_delete.
Qed.

Lemma max_count_bound (l : list Z) (b : Z) :
  0 ≤ b → Forall (λ x, x ≤ b) l → foldr Z.max 0 l ≤ b.
Proof. intros Hb. induction 1; simpl; lia. Qed.

Lemma max_count_perm (l1 l2 : list Z) :
  l1 ≡ₚ l2 → foldr Z.max 0 l1 = foldr Z.max 0 l2.
Proof. induction 1; simpl; lia. Qed.

(** Every count of a tally is at least one vote. *)
Lemma count_vote_positive (t : gmap Key Z) (c : Candidate State Move Key) :
  map_Forall (λ _ n, 1 ≤ n) t → map_Forall (λ _ n, 1 ≤ n) (count_vote t c).
Proof.
  intros Ht. destruct c as [s m k|r]; simpl; [|done].
  apply map_Forall_insert_2; [|done].
  destruct (t !! k) as [n|] eqn:E; simpl; [|lia].
  specialize (Ht k n E). simpl in Ht. lia.
Qed.

Lemma tally_positive (cands : list (Candidate State Move Key)) w c :
  tally cands !! w = Some c → 1 ≤ c.
Proof.
  unfold tally.
  assert (G : ∀ t, map_Forall (λ _ n, 1 ≤ n) t →
                   map_Forall (λ _ n, 1 ≤ n) (foldl count_vote t cands)).
  { induction cands as [|x xs IH]; intros t Ht; simpl; [done|].
    apply IH. by apply count_vote_positive. }
  intros E. exact (G ∅ (map_Forall_empty _) w c E).
Qed.

(** C1.  When one key of the tally of a candidate set has strictly more
    votes than every other key, and its margin over the second-highest count
    (0 when it is the only key) is at least [k_margin], [decide] returns that
    key as the winner, with that margin, and is confident. *)
Theorem decide_unique_leader (cands : list (Candidate State Move Key))
    (w : Key) (c k_margin : Z) :
  tally cands !! w = Some c →
  (∀ w' c', w' ≠ w → tally cands !! w' = Some c' → c' < c) →
  k_margin ≤ c - second_count (tally cands) w →
  decide (tally cands) k_margin
  = (Some w, c - second_count (tally cands) w, true).
Proof.
  set (t := tally cands). intros Hw Hmax Hk.
  unfold decide. destruct (ranked t) as [|[w1 c1] rest] eqn:E.
  { apply elem_of_ranked in Hw. rewrite E in Hw. by apply elem_of_nil in Hw. }
  destruct (ranked_cons _ _ _ _ E) as (H1 & Hle & Hs & Hp).
  assert (w1 = w) as ->.
  { destruct (base.decide (w1 = w)) as [|Hne]; [done|]. exfalso.
    pose proof (Hmax _ _ Hne H1) as Hlt.
    apply elem_of_ranked in Hw. rewrite E in Hw.
    apply elem_of_cons in Hw as [Heq|Hin]; [congruence|].
    rewrite Forall_forall in Hle. specialize (Hle _ Hin). simpl in Hle. lia. }
  assert (c1 = c) as -> by congruence.
  assert (Hsec : second_count t w
                 = match rest with [] => 0 | (_, c2) :: _ => c2 end).
  { unfold second_count. rewrite <- (max_count_perm _ _ (fmap_Permutation snd _ _ Hp)).
    destruct rest as [|[w2 c2] rest']; [done|].
    rewrite fmap_cons. cbn [foldr snd].
    apply StronglySorted_inv in Hs as [_ Hs].
    assert (1 ≤ c2).
    { apply (tally_positive cands w2). apply elem_of_ranked. fold t.
      rewrite E. right. left. }
    assert (foldr Z.max 0 rest'.*2 ≤ c2); [|lia].
    apply max_count_bound; [lia|].
    apply Forall_fmap. eapply Forall_impl; [exact Hs|]. by intros [??]. }
  rewrite <- Hsec. rewrite bool_decide_eq_true_2; done.
Qed.

(** C2.  When two distinct keys share the highest count of the tally,
    [decide] is not confident, whatever the counts and for every [k_margin]
    a configuration can carry, that is every integer of at least 1
    (section 3; [new_MDAPConfig] admits no other). *)
Theorem decide_tie_inconclusive (cands : list (Candidate State Move Key))
    (w1 w2 : Key) (c k_margin : Z) :
  w1 ≠ w2 →
  tally cands !! w1 = Some c →
  tally cands !! w2 = Some c →
  (∀ w' c', tally cands !! w' = Some c' → c' ≤ c) →
  1 ≤ k_margin →
  (decide (tally cands) k_margin).2 = false.
Proof.
  set (t := tally cands). intros Hne H1 H2 Hmax Hk.
  unfold decide. destruct (ranked t) as [|[u1 n1] rest] eqn:E.
  { done. }
  destruct (ranked_cons _ _ _ _ E) as (Hu & Hle & Hs & Hp).
  (* one of the two leaders is not the head, so it is in the rest *)
  assert (∃ w, (w, c) ∈ rest) as [w Hin].
  { destruct (base.decide (u1 = w1)) as [->|Hd].
    - exists w2. apply elem_of_ranked in H2. rewrite E in H2.
      apply elem_of_cons in H2 as [Heq|?]; [congruence|done].
    - exists w1. apply elem_of_ranked in H1. rewrite E in H1.
      apply elem_of_cons in H1 as [Heq|?]; [congruence|done]. }
  assert (Hn1 : n1 = c).
  { pose proof (Hmax _ _ Hu). rewrite Forall_forall in Hle.
    specialize (Hle _ Hin). simpl in Hle. lia. }
  destruct rest as [|[u2 n2] rest']; [by apply elem_of_nil in Hin|].
  assert (Hn2 : n2 = c).
  { assert (Hu2 : t !! u2 = Some n2).
    { apply elem_of_ranked. rewrite E. right. left. }
    pose proof (Hmax _ _ Hu2).
    apply StronglySorted_inv in Hs as [_ Hs].
    apply elem_of_cons in Hin as [Heq|Hin]; [congruence|].
    rewrite Forall_forall in Hs. specialize (Hs _ Hin).
    unfold by_count_desc in Hs. simpl in Hs. lia. }
  simpl. apply bool_decide_eq_false_2. lia.
Qed.

End Ranking.

Import Samples.

Lemma tally_split_vote : tally split_vote = <["a" := 2]> {["b" := 1]}.
Proof. reflexivity. Qed.

Lemma tally_tied_vote : tally tied_vote = <["a" := 1]> {["b" := 1]}.
Proof. reflexivity. Qed.

Lemma decide_unique_leader_witness :
  decide (tally split_vote) 1
  = (Some "a", 2 - second_count (tally split_vote) "a", true).
Proof.
  apply decide_unique_leader.
  - reflexivity.
  - intros w' c' Hne Hl. rewrite tally_split_vote in Hl.
    rewrite lookup_insert_ne in Hl by done.
    apply lookup_singleton_Some in Hl as [_ <-]. lia.
  - by vm_compute.
Defined.

Lemma decide_tie_inconclusive_witness :
  (decide (tally tied_vote) 1).2 = false.
Proof.
  apply (decide_tie_inconclusive tied_vote "a" "b" 1 1).
  - done.
  - reflexivity.
  - reflexivity.
  - intros w' c' Hl. rewrite tally_tied_vote in Hl.
    apply lookup_insert_Some in Hl as [[_ <-]|[_ Hl]]; [lia|].
    apply lookup_singleton_Some in Hl as [_ <-]. lia.
  - lia.
Defined.

End VotingFacts.

(** ** Metrics and configuration *)

Module MDAPFacts.
Import Voting MDAP.

Lemma sum_list_snoc (l : list Z) (n : Z) : sum_list (l ++ [n]) = sum_list l + n.
Proof. unfold sum_list. by rewrite foldl_snoc. Qed.

Lemma sum_values_insert (d : gmap string Z) (r : string) (v : Z) :
  sum_values (<[r := v]> d) = sum_values d - default 0 (d !! r) + v.
Proof.
  assert (Hcomm : ∀ (m : gmap string Z) (j1 j2 : string) (z1 z2 y : Z),
             j1 ≠ j2 → m !! j1 = Some z1 → m !! j2 = Some z2 →
             y + z2 + z1 = y + z1 + z2) by (intros; lia).
  unfold sum_values. destruct (d !! r) as [x|] eqn:E; simpl.
  - rewrite <- insert_delete_eq.
    rewrite map_fold_insert_L; [|by eauto|by apply lookup_delete_eq].
    rewrite (map_fold_delete_L _ _ r x d); [lia|by eauto|done].
  - rewrite map_fold_insert_L; [lia|by eauto|done].
Qed.

Lemma record_step_consistent (n : Z) (m : MDAPMetrics) :
  metrics_consistent m → metrics_consistent (record_step n m).
Proof.
  intros [Hs Hf]. split; simpl; [|done]. rewrite sum_list_snoc. lia.
Qed.

Lemma record_red_flag_consistent (r : string) (m : MDAPMetrics) :
  metrics_consistent m → metrics_consistent (record_red_flag r m).
Proof.
  intros [Hs Hf]. split; simpl; [done|]. rewrite sum_values_insert. lia.
Qed.

Lemma record_red_flags_consistent (rs : list string) (m : MDAPMetrics) :
  metrics_consistent m →
  metrics_consistent (foldl (λ acc r, record_red_flag r acc) m rs).
Proof.
  revert m. induction rs as [|r rs IH]; intros m Hm; simpl; [done|].
  apply IH. by apply record_red_flag_consistent.
Qed.

Lemma empty_metrics_consistent : metrics_consistent empty_metrics.
Proof. split; reflexivity. Qed.

Section Steps.
Context {State Move Key P : Type} `{Countable Key} `{!StateCodec State Key}.
Variable validate : State → RawCandidate State Move → Validity.
Variable predict : P → State → option (RawCandidate State Move) * P.

Lemma update_metrics_consistent (m : MDAPMetrics) (n : Z)
    (cands : list (Candidate State Move Key)) (d : Decision State Move) :
  metrics_consistent m → metrics_consistent (update_metrics m n cands d).
Proof.
  intros Hm. unfold update_metrics.
  pose proof (record_red_flags_consistent (omap invalid_reason cands) _
                (record_step_consistent n m Hm)) as H2.
  destruct (red_flag d); [by apply record_red_flag_consistent|done].
Qed.

Lemma step_consistent (o : Orchestrator) (p : P) (prev : State) :
  metrics_consistent (metrics o) →
  metrics_consistent
    (metrics (orchestrator_step validate predict o p prev).1.2).
Proof.
  intros Hm. unfold orchestrator_step.
  destruct (sample_step validate predict (config o) prev p) as [[cands n] p'].
  simpl. by apply update_metrics_consistent.
Qed.

Lemma steps_consistent (ctxs : list State) (o : Orchestrator) (p : P) :
  metrics_consistent (metrics o) →
  metrics_consistent (metrics (steps validate predict o p ctxs).1.2).
Proof.
  revert o p. induction ctxs as [|c ctxs IH]; intros o p Hm; simpl; [done|].
  pose proof (step_consistent o p c Hm) as H1.
  destruct (orchestrator_step validate predict o p c) as [[d o1] p1].
  specialize (IH o1 p1 H1).
  destruct (steps validate predict o1 p1 ctxs) as [[ds o2] p2]. done.
Qed.

(** The fuel of [escalate] is never used up under a valid configuration:
    sampling stops on a confident decision or at the cap. *)
Lemma escalate_stops (cfg : MDAPConfig) (prev : State) (fuel : nat) :
  ∀ (cands : list (Candidate State Move Key)) (n : Z) (p : P),
    1 ≤ batch_size cfg →
    n ≤ max_candidates cfg →
    (Z.to_nat (max_candidates cfg - n) ≤ fuel)%nat →
    let out := escalate validate predict fuel cfg prev cands n p in
    (decide (tally out.1.1) (k_margin cfg)).2 = true ∨
    out.1.2 = max_candidates cfg.
Proof.
  induction fuel as [|fuel IH]; intros cands n p Hb Hn Hfuel; cbn [escalate];
    (destruct ((decide (tally cands) (k_margin cfg)).2) eqn:Hc;
       [by left|]);
    (case_bool_decide as Hm; [by right|]); cbn [orb].
  - lia.
  - destruct (sample predict p prev _) as [raws p'].
    apply IH; unfold next_batch; lia.
Qed.

(** C3.  After any sequence of steps of an orchestrator that started with
    empty metrics, whatever its configuration, predictor and validator, the
    metrics snapshot satisfies [sum(samples_per_step) == total_samples] and
    [sum(red_flags_by_reason.values()) == total_red_flags]. *)
Theorem metrics_invariant (cfg : MDAPConfig) (p : P) (ctxs : list State) :
  let o := {| config := cfg; metrics := empty_metrics |} in
  let snapshot := get_metrics (steps validate predict o p ctxs).1.2 in
  sum_list (samples_per_step snapshot) = total_samples snapshot ∧
  sum_values (red_flags_by_reason snapshot) = total_red_flags snapshot.
Proof.
  intros o snapshot. apply (steps_consistent ctxs o p).
  apply empty_metrics_consistent.
Qed.

(** C7.  A configuration whose cap is below the margin, or whose margin or
    cap is not positive, is rejected by the constructor; no orchestrator is
    created for it, and a session started with it ends with the same error
    and the predictor untouched: no sampling call is issued. *)
Theorem invalid_config_rejected (k m : Z) (b : option Z) (p : P)
    (ctxs : list State) :
  m < k ∨ k ≤ 0 ∨ m ≤ 0 →
  ∃ msg, new_MDAPConfig k m b = ValueError msg ∧
         create_orchestrator_from_config k m b = ValueError msg ∧
         orchestrate validate predict k m b p ctxs = (ValueError msg, p).
Proof.
  intros Hbad. unfold orchestrate, create_orchestrator_from_config.
  unfold new_MDAPConfig. repeat case_bool_decide; eauto.
  - destruct b as [x|]; simpl; [case_bool_decide|]; eauto; lia.
  - destruct b as [x|]; simpl; [case_bool_decide|]; eauto; lia.
Qed.

End Steps.

Lemma invalid_config_rejected_witness :
  ∃ msg, new_MDAPConfig 5 3 None = ValueError msg ∧
         create_orchestrator_from_config 5 3 None = ValueError msg ∧
         orchestrate (Key:=Pegs) Hanoi.validate Perfect.counting_predict
           5 3 None 0%nat [Demo.default_initial_pegs]
         = (ValueError msg, 0%nat).
Proof. apply invalid_config_rejected. lia. Defined.

End MDAPFacts.

(** ** The validator of the peg-and-disk domain *)

Module HanoiFacts.
Import Hanoi.

#[local] Instance larger_first_total : Total larger_first.
Proof. intros a b. unfold larger_first. lia. Qed.

#[local] Instance larger_first_trans : Transitive larger_first.
Proof. intros a b c. unfold larger_first. lia. Qed.

#[local] Instance larger_first_antisymm : AntiSymm (=) larger_first.
Proof. intros a b. unfold larger_first. lia. Qed.

(** The codec of the reference domain meets its contract: canonical keys
    are fixed by [canonicalize], and [equals] is reflexive. *)
Lemma canonical_pegs_idempotent (ps : Pegs) :
  canonical_pegs (canonical_pegs ps) = canonical_pegs ps.
Proof.
  unfold canonical_pegs. rewrite <- list_fmap_compose.
  apply list_fmap_ext. intros _ p _. simpl.
  apply (Sorted_unique larger_first).
  - apply Sorted_merge_sort; apply _.
  - apply Sorted_merge_sort; apply _.
  - apply merge_sort_Permutation.
Qed.

Lemma hanoi_equals_refl (ps : Pegs) : equals ps ps = true.
Proof. simpl. by apply bool_decide_eq_true_2. Qed.

Section Validator.
Context {Key : Type} `{StateCodec Pegs Key}.

Lemma destination_accepts_spec (dst : Peg) (d : Z) :
  destination_accepts dst d = true ↔
  dst = [] ∨ ∃ t, last dst = Some t ∧ d < t.
Proof.
  unfold destination_accepts. destruct (last dst) as [t|] eqn:E.
  - rewrite bool_decide_eq_true. split.
    + intros Hlt. right. by exists t.
    + intros [->|(t' & [= <-] & Hlt)]; [done|done].
  - apply last_None in E. split; [by left|done].
Qed.

(** C8.  The validator accepts a candidate exactly when the source peg is
    not empty, the moved disk is its topmost disk, the destination peg is
    empty or topped by a strictly larger disk, and the claimed next state
    equals, under the codec's equality, the state the move produces.  Every
    rejection carries one of the four fixed reasons, and a move from an empty
    peg is rejected as [illegal_source]. *)
Theorem validate_spec (previous_state : Pegs)
    (c : RawCandidate Pegs HanoiMove) :
  (validate previous_state c = valid ↔
   ∃ m claimed src dst,
     cand_move c = Some m ∧ cand_state c = Some claimed ∧
     previous_state !! from_peg m = Some src ∧ src ≠ [] ∧
     last src = Some (disk m) ∧
     previous_state !! to_peg m = Some dst ∧
     (dst = [] ∨ ∃ t, last dst = Some t ∧ disk m < t) ∧
     equals claimed (apply_move previous_state m) = true) ∧
  (∀ reason, validate previous_state c = invalid reason →
             reason ∈ validation_reasons) ∧
  (∀ m, cand_move c = Some m → is_Some (cand_state c) →
        previous_state !! from_peg m = Some [] →
        validate previous_state c = invalid illegal_source).
Proof.
  unfold validate, validation_reasons. split; [|split].
  - split.
    + destruct (cand_move c) as [m|]; [|done].
      destruct (cand_state c) as [claimed|]; [|done].
      destruct (previous_state !! from_peg m) as [src|] eqn:Es; [|done].
      simpl. destruct (last src) as [top|] eqn:El; [|done].
      case_bool_decide as Ht; [subst top|done].
      destruct (previous_state !! to_peg m) as [dst|] eqn:Ed; [|done].
      destruct (destination_accepts dst (disk m)) eqn:Ea; [|done].
      destruct (equals claimed (apply_move previous_state m)) eqn:Ee; [|done].
      intros _. exists m, claimed, src, dst. repeat split; try done.
      * intros ->. done.
      * by apply destination_accepts_spec.
    + intros (m & claimed & src & dst & -> & -> & -> & _ & Hl & -> & Hd & ->).
      simpl. rewrite Hl. rewrite bool_decide_eq_true_2 by done.
      apply destination_accepts_spec in Hd. by rewrite Hd.
  - intros reason.
    repeat (first [ case_match | case_bool_decide ]);
      intros [= <-]; set_solver.
  - intros m -> [claimed ->] ->. done.
Qed.

End Validator.

(** The two concrete cases of the design document: on [[3,2,1],[],[]] the
    move of the top of peg 0 to peg 2 with next state [[3,2],[],[1]] is
    valid, and a move from the empty peg 1 is an illegal source. *)
Example validate_first_move :
  validate [[3; 2; 1]; []; []]
    {| cand_move := Some {| disk := 1; from_peg := 0; to_peg := 2 |};
       cand_state := Some [[3; 2]; []; [1]] |} = valid.
Proof. reflexivity. Qed.

Example validate_empty_source :
  validate [[3; 2; 1]; []; []]
    {| cand_move := Some {| disk := 1; from_peg := 1; to_peg := 0 |};
       cand_state := Some [[3; 2; 1; 1]; []; []] |} = invalid illegal_source.
Proof. reflexivity. Qed.

Lemma validate_spec_witness :
  let prev : Pegs := [[3; 2; 1]; []; []] in
  let good := {| cand_move := Some {| disk := 1; from_peg := 0; to_peg := 2 |};
                 cand_state := Some [[3; 2]; []; [1]] |} in
  let bad := {| cand_move := Some {| disk := 1; from_peg := 1; to_peg := 0 |};
                cand_state := Some [[3; 2; 1; 1]; []; []] |} in
  validate prev good = valid ∧
  validate prev bad = invalid illegal_source ∧
  illegal_source ∈ validation_reasons.
Proof.
  intros prev good bad.
  destruct (validate_spec (Key:=Pegs) prev good) as (Hiff & _ & _).
  destruct (validate_spec (Key:=Pegs) prev bad) as (_ & Hreason & Hempty).
  assert (Hv : validate prev bad = invalid illegal_source).
  { apply (Hempty {| disk := 1; from_peg := 1; to_peg := 0 |});
      [reflexivity|by eexists|reflexivity]. }
  split; [|split; [exact Hv|by apply Hreason]].
  apply Hiff.
  exists {| disk := 1; from_peg := 0; to_peg := 2 |}, [[3; 2]; []; [1]],
         [3; 2; 1], [].
  repeat split; try reflexivity; [discriminate|by left].
Defined.

End HanoiFacts.

(** ** The run loop of the demo *)

Module DemoFacts.
Import MDAP Demo.

Section Loop.
Context {Move VS : Type}.
Variable voting_call : VS → VotingInput Move → option (Result Move) * VS.
Variable hooks_metrics : VS → MDAPMetrics.

Lemma copy_pegs_id (ps : Pegs) : copy_pegs ps = ps.
Proof. unfold copy_pegs. apply list_fmap_id. Qed.

Lemma goal_reached_true (ctx : Context Move) :
  goal_reached ctx = true ↔ pegs ctx = goal ctx.
Proof. unfold goal_reached. apply bool_decide_eq_true. Qed.

Lemma goal_reached_false (ctx : Context Move) :
  goal_reached ctx = false ↔ pegs ctx ≠ goal ctx.
Proof. unfold goal_reached. apply bool_decide_eq_false. Qed.

(** The three ways through the loop body. *)
Lemma loop_body_solved ctx trace vs :
  pegs ctx = goal ctx →
  loop_body voting_call ctx trace vs = Break (mark_solved ctx) trace vs.
Proof.
  intros E. unfold loop_body. apply goal_reached_true in E. by rewrite E.
Qed.

Lemma loop_body_none ctx trace vs vs' :
  pegs ctx ≠ goal ctx →
  voting_call vs {| in_pegs := pegs ctx;
                    in_previous_move := previous_move ctx |} = (None, vs') →
  loop_body voting_call ctx trace vs = Break ctx trace vs'.
Proof.
  intros E Hv. unfold loop_body. apply goal_reached_false in E.
  by rewrite E, Hv.
Qed.

Lemma loop_body_some ctx trace vs r vs' :
  pegs ctx ≠ goal ctx →
  voting_call vs {| in_pegs := pegs ctx;
                    in_previous_move := previous_move ctx |} = (Some r, vs') →
  loop_body voting_call ctx trace vs
  = Continue (update_context ctx r)
             (trace ++ [trace_entry (update_context ctx r)]) vs'.
Proof.
  intros E Hv. unfold loop_body. apply goal_reached_false in E.
  by rewrite E, Hv.
Qed.

(** What the loop body preserves, however it ends. *)
Lemma loop_body_post ctx trace vs :
  match loop_body voting_call ctx trace vs with
  | Break ctx' trace' _ =>
      step ctx' = step ctx ∧ goal ctx' = goal ctx ∧ trace' = trace
  | Continue ctx' trace' _ =>
      step ctx' = step ctx + 1 ∧ goal ctx' = goal ctx ∧
      solved ctx' = solved ctx ∧ length trace' = S (length trace)
  end.
Proof.
  unfold loop_body. destruct (goal_reached ctx); [done|].
  destruct (voting_call _ _) as [[r|] vs']; simpl; [|done].
  repeat split. rewrite length_app. simpl. lia.
Qed.

(** With enough fuel for the steps left in the budget, the loop returns. *)
Lemma run_loop_total (fuel : nat) :
  ∀ ctx trace vs,
    (Z.to_nat (step_budget - step ctx) ≤ fuel)%nat →
    ∃ ctx' trace' vs',
      run_loop voting_call fuel ctx trace vs = Some (ctx', trace', vs') ∧
      step ctx ≤ step ctx' ∧
      (step ctx ≤ step_budget → step ctx' ≤ step_budget) ∧
      goal ctx' = goal ctx ∧
      length trace' = (length trace + Z.to_nat (step ctx' - step ctx))%nat ∧
      (solved ctx' = true → solved ctx = true ∨ step ctx' < step_budget).
Proof.
  induction fuel as [|fuel IH]; intros ctx trace vs Hfuel; simpl;
    case_bool_decide as Hlt; unfold step_budget in *.
  - lia.
  - exists ctx, trace, vs. repeat split; try lia. by left.
  - pose proof (loop_body_post ctx trace vs) as Hpost.
    destruct (loop_body voting_call ctx trace vs) as [c t v|c t v];
      simpl in Hpost.
    + destruct Hpost as (Hs & Hg & ->).
      exists c, trace, v. repeat split; try done; lia.
    + destruct Hpost as (Hs & Hg & Hsol & Hlen).
      destruct (IH c t v) as (c' & t' & v' & Hrun & H1 & H2 & H3 & H4 & H5).
      { unfold step_budget. lia. }
      exists c', t', v'. unfold step_budget in *.
      repeat split; try done; try lia.
      * congruence.
      * intros Hc. destruct (H5 Hc) as [H6|H6]; [left; congruence|by right].
  - exists ctx, trace, vs. repeat split; try lia. by left.
Qed.

(** More fuel does not change the outcome. *)
Lemma run_loop_more_fuel (fuel : nat) :
  ∀ fuel' ctx trace vs out,
    (fuel ≤ fuel')%nat →
    run_loop voting_call fuel ctx trace vs = Some out →
    run_loop voting_call fuel' ctx trace vs = Some out.
Proof.
  induction fuel as [|fuel IH]; intros fuel' ctx trace vs out Hle; simpl;
    case_bool_decide as Hlt; try done.
  - destruct fuel'; simpl; by rewrite bool_decide_eq_false_2.
  - destruct fuel' as [|fuel']; [lia|]. simpl.
    rewrite bool_decide_eq_true_2 by done.
    destruct (loop_body voting_call ctx trace vs) as [c t v|c t v]; [done|].
    apply IH. lia.
  - destruct fuel'; simpl; by rewrite bool_decide_eq_false_2.
Qed.

(** A run along a path.  When the voting call, from every state of the
    path but the last, answers with the next state of the path (and keeps an
    invariant [I] of its own state), and the path ends at the goal without
    passing through it, the loop walks the path and stops as solved after one
    step per hop. *)
Lemma run_follows_path (I : VS → Prop) (rest : list Pegs) :
  ∀ (s : Pegs) (ctx : Context Move) (trace : list (TraceEntry Move))
    (vs : VS) (fuel : nat),
    pegs ctx = s →
    I vs →
    Forall (λ hop : Pegs * Pegs,
              hop.1 ≠ goal ctx ∧
              ∀ vs prev, I vs →
                ∃ r vs', voting_call vs {| in_pegs := hop.1;
                                           in_previous_move := prev |}
                         = (Some r, vs') ∧
                         predicted_state r = Some hop.2 ∧ I vs')
           (zip (s :: rest) rest) →
    last (s :: rest) = Some (goal ctx) →
    step ctx + Z.of_nat (length rest) < step_budget →
    (length rest < fuel)%nat →
    ∃ ctx' trace' vs',
      run_loop voting_call fuel ctx trace vs = Some (ctx', trace', vs') ∧
      pegs ctx' = goal ctx ∧ solved ctx' = true ∧
      step ctx' = step ctx + Z.of_nat (length rest) ∧
      length trace' = (length trace + length rest)%nat ∧
      I vs'.
Proof.
  induction rest as [|s' rest IH];
    intros s ctx trace vs fuel Hs HI Hhops Hlast Hstep Hfuel;
    (destruct fuel as [|fuel]; [simpl in Hfuel; lia|]);
    simpl; rewrite bool_decide_eq_true_2 by (simpl in Hstep; lia).
  - simpl in Hlast. injection Hlast as Hg.
    rewrite loop_body_solved by congruence.
    exists (mark_solved ctx), trace, vs. simpl.
    repeat split; try done; try lia. congruence.
  - simpl in Hhops. apply Forall_cons in Hhops as [[Hne Hans] Hhops].
    simpl in Hne.
    destruct (Hans vs (previous_move ctx) HI) as (r & vs' & Hv & Hp & HI').
    simpl in Hv. rewrite <- Hs in Hv, Hne.
    rewrite (loop_body_some _ _ _ _ _ Hne Hv).
    destruct (IH s' (update_context ctx r)
                (trace ++ [trace_entry (update_context ctx r)]) vs' fuel)
      as (c & t & v & Hrun & H1 & H2 & H3 & H4 & H5).
    + simpl. by rewrite Hp.
    + done.
    + exact Hhops.
    + simpl. by rewrite <- Hlast.
    + simpl in *. lia.
    + simpl in *. lia.
    + exists c, t, v. simpl in *.
      repeat split; try done; try lia.
      rewrite H4, length_app. simpl. lia.
Qed.

(** C6.  Whatever the voting call does, [run] returns a report after at most
    20 executions of the loop body: 20 units of fuel are enough (and more
    change nothing), the step counter ends between 0 and 20, the trace has
    one entry per step after the initial one, and a run that used up the
    budget reports [solved = False] instead of failing. *)
Theorem run_terminates_within_budget (hanoi_config : HanoiSettings) (vs : VS) :
  ∃ r, run voting_call hooks_metrics hanoi_config vs = Some r ∧
       (∀ fuel, (Z.to_nat step_budget ≤ fuel)%nat →
                run_with voting_call hooks_metrics fuel hanoi_config vs
                = Some r) ∧
       0 ≤ r_total_steps r ≤ step_budget ∧
       length (r_trace r) = S (Z.to_nat (r_total_steps r)) ∧
       (r_total_steps r = step_budget → r_solved r = false).
Proof.
  unfold run, run_with.
  set (ctx := initial_context hanoi_config).
  destruct (run_loop_total (Z.to_nat step_budget) ctx (initial_trace ctx) vs)
    as (c & t & v & Hrun & H1 & H2 & H3 & H4 & H5).
  { simpl. lia. }
  exists (report hooks_metrics (c, t, v)). split; [by rewrite Hrun|].
  split.
  { intros fuel Hf.
    by rewrite (run_loop_more_fuel _ _ _ _ _ _ Hf Hrun). }
  simpl in *. unfold step_budget in *. repeat split; try lia.
  intros E. destruct (solved c) eqn:Es; [|done].
  destruct (H5 eq_refl) as [?|?]; [done|lia].
Qed.

(** C4 (as amended).  At a step within the budget where the goal is not
    reached, a voting round that returns a result makes the loop apply it and
    go on to the next iteration, whatever confidence or flag lies behind the
    result: the pegs become the predicted state when the result has one and
    stay as they are otherwise, the move of the result becomes the previous
    move, the step counter goes up by one, and an entry with these pegs, step
    and move is appended to the trace.  A round that returns [None] ends the
    loop there, with the context and the trace as they were.  In every case
    [run] hands back a report: the trace, with one entry per step after the
    initial one, the final pegs, and the metrics of the hooks as the loop
    left them. *)
Theorem run_continues_on_result (ctx : Context Move)
    (trace : list (TraceEntry Move)) (vs : VS) (fuel : nat) :
  pegs ctx ≠ goal ctx →
  step ctx < step_budget →
  (∀ r vs',
     voting_call vs {| in_pegs := pegs ctx;
                       in_previous_move := previous_move ctx |}
     = (Some r, vs') →
     let applied := match predicted_state r with
                    | Some s => s
                    | None => pegs ctx
                    end in
     let ctx' := {| pegs := applied; goal := goal ctx;
                    previous_move := move r; step := step ctx + 1;
                    solved := solved ctx |} in
     let trace' := trace ++ [{| t_pegs := applied; t_step := step ctx + 1;
                                t_move := Some (move r) |}] in
     loop_body voting_call ctx trace vs = Continue ctx' trace' vs' ∧
     run_loop voting_call (S fuel) ctx trace vs
     = run_loop voting_call fuel ctx' trace' vs') ∧
  (∀ vs',
     voting_call vs {| in_pegs := pegs ctx;
                       in_previous_move := previous_move ctx |}
     = (None, vs') →
     loop_body voting_call ctx trace vs = Break ctx trace vs' ∧
     run_loop voting_call (S fuel) ctx trace vs = Some (ctx, trace, vs')) ∧
  (∀ hanoi_config vs0,
     ∃ c t v,
       run_loop voting_call (Z.to_nat step_budget)
                (initial_context hanoi_config)
                (initial_trace (initial_context hanoi_config)) vs0
       = Some (c, t, v) ∧
       run voting_call hooks_metrics hanoi_config vs0
       = Some {| r_trace := t; r_final_state := pegs c;
                 r_solved := solved c; r_total_steps := step c;
                 r_metrics := hooks_metrics v |} ∧
       length t = S (Z.to_nat (step c)) ∧
       0 ≤ step c ≤ step_budget).
Proof.
  intros Hne Hlt. split; [|split].
  - intros r vs' Hv applied ctx' trace'.
    assert (Hbody : loop_body voting_call ctx trace vs
                    = Continue ctx' trace' vs').
    { rewrite (loop_body_some _ _ _ _ _ Hne Hv).
      unfold update_context, trace_entry, ctx', trace', applied. simpl.
      rewrite copy_pegs_id. by destruct (predicted_state r). }
    split; [exact Hbody|]. simpl.
    by rewrite bool_decide_eq_true_2, Hbody.
  - intros vs' Hv.
    assert (Hbody : loop_body voting_call ctx trace vs = Break ctx trace vs')
      by by apply loop_body_none.
    split; [exact Hbody|]. simpl.
    by rewrite bool_decide_eq_true_2, Hbody.
  - intros hanoi_config vs0. unfold run, run_with.
    set (c0 := initial_context hanoi_config).
    destruct (run_loop_total (Z.to_nat step_budget) c0 (initial_trace c0) vs0)
      as (c & t & v & Hrun & H0 & Hle & _ & Hlen & _).
    { simpl. lia. }
    exists c, t, v. rewrite Hrun. split; [done|]. split; [done|].
    simpl in *. unfold step_budget in *. split; lia.
Qed.

(** C5 (as amended).  The goal test of the loop is the structural equality
    of the two nested lists: the loop stops as solved exactly when the pegs
    and the goal are the same lists, and otherwise leaves [solved] as it was.
    A state the test accepts is equal to the goal under every codec whose
    equality is reflexive. *)
Theorem goal_test_is_structural (ctx : Context Move)
    (trace : list (TraceEntry Move)) (vs : VS) :
  (goal_reached ctx = true ↔ pegs ctx = goal ctx) ∧
  (pegs ctx = goal ctx →
   loop_body voting_call ctx trace vs = Break (mark_solved ctx) trace vs) ∧
  (pegs ctx ≠ goal ctx →
   match loop_body voting_call ctx trace vs with
   | Break ctx' _ _ | Continue ctx' _ _ => solved ctx' = solved ctx
   end) ∧
  (∀ (Key : Type) (codec : StateCodec Pegs Key),
     (∀ s, equals s s = true) →
     goal_reached ctx = true → equals (pegs ctx) (goal ctx) = true).
Proof.
  split; [apply goal_reached_true|]. split; [apply loop_body_solved|]. split.
  - intros Hne. apply goal_reached_false in Hne. unfold loop_body.
    rewrite Hne. by destruct (voting_call _ _) as [[r|] vs'].
  - intros Key codec Hrefl Hg. apply goal_reached_true in Hg.
    rewrite Hg. apply Hrefl.
Qed.

(** C10.  When a voting round returns a result without a predicted state,
    the pegs stay as they are, the step counter still goes up by one and the
    move of the result, which may be [None], is recorded in the context and
    in the trace.  Whichever way the loop body ends, the pegs differ from
    those it started with only if the result supplied a predicted state. *)
Theorem missing_predicted_state_keeps_pegs (ctx : Context Move)
    (trace : list (TraceEntry Move)) (vs : VS) :
  (∀ r vs',
     pegs ctx ≠ goal ctx →
     voting_call vs {| in_pegs := pegs ctx;
                       in_previous_move := previous_move ctx |}
     = (Some r, vs') →
     predicted_state r = None →
     loop_body voting_call ctx trace vs
     = Continue {| pegs := pegs ctx; goal := goal ctx;
                   previous_move := move r; step := step ctx + 1;
                   solved := solved ctx |}
                (trace ++ [{| t_pegs := pegs ctx; t_step := step ctx + 1;
                              t_move := Some (move r) |}])
                vs') ∧
  match loop_body voting_call ctx trace vs with
  | Break ctx' _ _ => pegs ctx' = pegs ctx
  | Continue ctx' _ _ =>
      pegs ctx' = pegs ctx ∨
      ∃ r vs', voting_call vs {| in_pegs := pegs ctx;
                                 in_previous_move := previous_move ctx |}
               = (Some r, vs') ∧
               predicted_state r = Some (pegs ctx')
  end.
Proof.
  split.
  - intros r vs' Hne Hv Hp. rewrite (loop_body_some _ _ _ _ _ Hne Hv).
    unfold update_context, trace_entry. rewrite Hp. simpl.
    by rewrite copy_pegs_id.
  - unfold loop_body. destruct (goal_reached ctx); [done|].
    destruct (voting_call _ _) as [[r|] vs'] eqn:Hv; [|done].
    simpl. destruct (predicted_state r) as [s|] eqn:Hp; simpl; [|by left].
    right. by exists r, vs'.
Qed.

End Loop.

Import Samples.

Lemma run_terminates_within_budget_witness :
  ∃ r, run idle_voting no_metrics default_settings () = Some r ∧
       r_total_steps r = 20 ∧ length (r_trace r) = 21%nat ∧
       r_solved r = false.
Proof.
  destruct (run_terminates_within_budget idle_voting no_metrics
              default_settings ()) as (r & Hrun & _ & _ & Hlen & Hs).
  exists r. split; [exact Hrun|].
  vm_compute in Hrun. injection Hrun as <-.
  split; [reflexivity|]. split; [exact Hlen|]. apply Hs. reflexivity.
Defined.

(** C4 as stated fails: a voting round without a valid response ends the
    run on the spot, here at step 0 of 20 and unsolved. *)
Lemma run_halts_without_result :
  ¬ (∀ (voting : unit → VotingInput unit → option (Result unit) * unit)
       (r : Report unit),
       run voting no_metrics default_settings () = Some r →
       r_solved r = true ∨ r_total_steps r = step_budget).
Proof.
  intros Hclaim.
  destruct (Hclaim silent_voting _ eq_refl) as [Hs|Hn]; vm_compute in *;
    discriminate.
Qed.

Lemma run_continues_on_result_witness :
  let ctx := initial_context (Move:=unit) default_settings in
  (loop_body advancing_voting ctx (initial_trace ctx) ()
   = Continue {| pegs := [[3; 2]; [1]; []]; goal := default_goal_pegs;
                 previous_move := Some (); step := 1; solved := false |}
              (initial_trace ctx
               ++ [{| t_pegs := [[3; 2]; [1]; []]; t_step := 1;
                      t_move := Some (Some ()) |}]) ()) ∧
  (run_loop silent_voting 20 ctx (initial_trace ctx) ()
   = Some (ctx, initial_trace ctx, ())).
Proof.
  intros ctx.
  assert (Hne : pegs ctx ≠ goal ctx) by (vm_compute; discriminate).
  assert (Hlt : step ctx < step_budget) by (by vm_compute).
  split.
  - destruct (run_continues_on_result advancing_voting no_metrics ctx
                (initial_trace ctx) () 0 Hne Hlt) as (Hsome & _ & _).
    apply (Hsome {| predicted_state := Some [[3; 2]; [1]; []];
                    move := Some () |} ()).
    reflexivity.
  - destruct (run_continues_on_result silent_voting no_metrics ctx
                (initial_trace ctx) () 19 Hne Hlt) as (_ & Hnone & _).
    apply (Hnone ()). reflexivity.
Defined.

(** C5 as stated fails: under the codec of the reference domain the state
    [[], [1, 2, 3], []] equals the goal [[], [3, 2, 1], []], yet the loop
    does not stop as solved on it. *)
Lemma goal_test_misses_codec_equality :
  ¬ (∀ (voting : unit → VotingInput unit → option (Result unit) * unit)
       (ctx : Context unit) (trace : list (TraceEntry unit)) (vs : unit),
       equals (StateCodec:=Hanoi.hanoi_codec) (pegs ctx) (goal ctx) = true →
       loop_body voting ctx trace vs = Break (mark_solved ctx) trace vs).
Proof.
  intros Hclaim.
  specialize (Hclaim silent_voting
                {| pegs := goal_listed_top_first; goal := default_goal_pegs;
                   previous_move := None; step := 0; solved := false |}
                [] () eq_refl).
  vm_compute in Hclaim. discriminate.
Qed.

Lemma goal_test_is_structural_witness :
  let ctx := {| pegs := default_goal_pegs; goal := default_goal_pegs;
                previous_move := @None unit; step := 7; solved := false |} in
  loop_body silent_voting ctx [] () = Break (mark_solved ctx) [] () ∧
  equals (StateCodec:=Hanoi.hanoi_codec) (pegs ctx) (goal ctx) = true.
Proof.
  intros ctx.
  destruct (goal_test_is_structural silent_voting ctx [] ())
    as (Hiff & Hstop & _ & Hcodec).
  split.
  - apply Hstop. reflexivity.
  - apply Hcodec.
    + intros s. apply bool_decide_eq_true_2. reflexivity.
    + apply Hiff. reflexivity.
Defined.

Lemma missing_predicted_state_keeps_pegs_witness :
  let ctx := initial_context (Move:=unit) default_settings in
  loop_body idle_voting ctx (initial_trace ctx) ()
  = Continue {| pegs := default_initial_pegs; goal := default_goal_pegs;
                previous_move := None; step := 1; solved := false |}
             (initial_trace ctx
              ++ [{| t_pegs := default_initial_pegs; t_step := 1;
                     t_move := Some None |}]) ().
Proof.
  intros ctx.
  destruct (missing_predicted_state_keeps_pegs idle_voting ctx
              (initial_trace ctx) ()) as (Hkeep & _).
  apply (Hkeep {| predicted_state := None; move := None |} ()).
  - vm_compute. discriminate.
  - reflexivity.
  - reflexivity.
Defined.

End DemoFacts.

(** ** One decision point with an unanimous predictor *)

Module UnanimousFacts.
Import Voting MDAP.

Section Unanimous.
Context {State Move Key P : Type} `{Countable Key} `{!StateCodec State Key}.
Variable validate : State → RawCandidate State Move → Validity.
Variable predict : P → State → option (RawCandidate State Move) * P.

(** The decision context, the answer the predictor gives to every call in
    that context, and the valid configuration of the orchestrator. *)
Variables (prev s' : State) (mv : Move) (cfg : MDAPConfig).
Let raw : RawCandidate State Move :=
  {| cand_move := Some mv; cand_state := Some s' |}.
Let vote : Candidate State Move Key := Valid s' mv (canonicalize s').

Hypothesis predict_raw : ∀ p, (predict p prev).1 = Some raw.
Hypothesis validate_raw : validate prev raw = valid.
Hypothesis margin_positive : 1 ≤ k_margin cfg.
Hypothesis cap_reachable : k_margin cfg ≤ max_candidates cfg.
Hypothesis batch_positive : 1 ≤ batch_size cfg.

Lemma sample_unanimous (n : nat) (p : P) :
  (sample predict p prev n).1 = replicate n raw.
Proof.
  revert p. induction n as [|n IH]; intros p; simpl; [done|].
  pose proof (predict_raw p) as Hp.
  destruct (predict p prev) as [r p1]. simpl in Hp. subst r.
  specialize (IH p1). destruct (sample predict p1 prev n) as [rs p2].
  simpl in *. by rewrite IH.
Qed.

Lemma to_candidate_unanimous : to_candidate validate prev raw = vote.
Proof. unfold to_candidate. by rewrite validate_raw. Qed.

Lemma votes_unanimous (n : nat) (p : P) :
  to_candidate validate prev <$> (sample predict p prev n).1
  = replicate n vote.
Proof.
  rewrite sample_unanimous, fmap_replicate. by rewrite to_candidate_unanimous.
Qed.

Lemma foldl_count_vote_replicate (n : nat) (t : gmap Key Z) :
  foldl count_vote t (replicate (S n) vote)
  = <[canonicalize s' := default 0 (t !! canonicalize s') + Z.of_nat (S n)]> t.
Proof.
  revert t. induction n as [|n IH]; intros t.
  - done.
  - rewrite replicate_S. cbn [foldl]. rewrite IH. unfold vote at 1. simpl.
    rewrite lookup_insert_eq, insert_insert_eq. simpl. f_equal. lia.
Qed.

Lemma tally_unanimous (n : nat) :
  tally (replicate (S n) vote) = {[canonicalize s' := Z.of_nat (S n)]}.
Proof.
  unfold tally. rewrite foldl_count_vote_replicate, lookup_empty. simpl.
  by rewrite insert_empty.
Qed.

Lemma decide_singleton (k : Key) (n km : Z) :
  decide {[k := n]} km = (Some k, n, bool_decide (km ≤ n)).
Proof.
  unfold decide, ranked. rewrite map_to_list_singleton. simpl.
  by rewrite Z.sub_0_r.
Qed.

(** Escalation stops with a tally of at least [k_margin] identical votes. *)
Lemma escalate_unanimous (fuel : nat) :
  ∀ (j : nat) (p : P),
    Z.of_nat (S j) ≤ max_candidates cfg →
    (Z.to_nat (max_candidates cfg - Z.of_nat (S j)) ≤ fuel)%nat →
    ∃ (j' : nat) (p' : P),
      escalate validate predict fuel cfg prev
               (replicate (S j) vote) (Z.of_nat (S j)) p
      = (replicate (S j') vote, Z.of_nat (S j'), p') ∧
      k_margin cfg ≤ Z.of_nat (S j').
Proof.
  induction fuel as [|fuel IH]; intros j p Hcap Hfuel;
    cbn [escalate]; rewrite tally_unanimous, decide_singleton; cbn [snd];
    (case_bool_decide as Hk; [by exists j, p|]);
    (case_bool_decide as Hm; [exists j, p; split; [done|lia]|]);
    cbn [orb].
  - lia.
  - set (b := next_batch cfg (Z.of_nat (S j))).
    assert (Hb : 1 ≤ b ≤ max_candidates cfg - Z.of_nat (S j)).
    { unfold b, next_batch. lia. }
    pose proof (votes_unanimous (Z.to_nat b) p) as Hv.
    destruct (sample predict p prev (Z.to_nat b)) as [raws p1].
    simpl in Hv. rewrite Hv, <- replicate_add.
    replace (Z.of_nat (S j) + b) with (Z.of_nat (S (j + Z.to_nat b))) by lia.
    replace (S j + Z.to_nat b)%nat with (S (j + Z.to_nat b)) by lia.
    apply IH; lia.
Qed.

Lemma sample_step_unanimous (p : P) :
  ∃ (j : nat) (p' : P),
    sample_step validate predict cfg prev p
    = (replicate (S j) vote, Z.of_nat (S j), p') ∧
    k_margin cfg ≤ Z.of_nat (S j).
Proof.
  unfold sample_step. set (b := next_batch cfg 0).
  assert (Hb : 1 ≤ b ≤ max_candidates cfg).
  { unfold b, next_batch. lia. }
  pose proof (votes_unanimous (Z.to_nat b) p) as Hv.
  destruct (sample predict p prev (Z.to_nat b)) as [raws p1].
  simpl in Hv. rewrite Hv.
  destruct (Z.to_nat b) as [|j] eqn:Ej; [lia|].
  replace b with (Z.of_nat (S j)) by lia.
  apply escalate_unanimous; lia.
Qed.

Lemma emit_unanimous (j : nat) :
  k_margin cfg ≤ Z.of_nat (S j) →
  emit cfg (replicate (S j) vote)
  = {| winning_state := Some s'; winning_move := Some mv;
       vote_count := Z.of_nat (S j); margin := Z.of_nat (S j);
       confident := true; red_flag := None |}.
Proof.
  intros Hk. unfold emit. rewrite tally_unanimous, decide_singleton.
  rewrite bool_decide_eq_true_2 by done.
  cbn [mbind option_bind]. rewrite lookup_singleton_eq.
  unfold winner_of. rewrite replicate_S. unfold vote at 1. simpl.
  by rewrite bool_decide_eq_true_2.
Qed.

Lemma no_invalid_votes (n : nat) :
  omap invalid_reason (replicate n vote) = [].
Proof. induction n as [|n IH]; [done|]. simpl. exact IH. Qed.

(** The step decides for the unanimous answer, confidently and without a
    red flag, and leaves the red-flag counters of the metrics alone. *)
Lemma orchestrator_step_unanimous (o : Orchestrator) (p : P) :
  config o = cfg →
  ∃ d o' p',
    orchestrator_step validate predict o p prev = (d, o', p') ∧
    winning_state d = Some s' ∧ winning_move d = Some mv ∧
    confident d = true ∧ red_flag d = None ∧
    config o' = cfg ∧
    total_red_flags (metrics o') = total_red_flags (metrics o) ∧
    red_flags_by_reason (metrics o') = red_flags_by_reason (metrics o).
Proof.
  intros Hc. unfold orchestrator_step. rewrite Hc.
  destruct (sample_step_unanimous p) as (j & p' & -> & Hk).
  rewrite (emit_unanimous j Hk).
  unfold update_metrics. rewrite no_invalid_votes.
  eexists _, _, _. split; [reflexivity|]. done.
Qed.

End Unanimous.

End UnanimousFacts.

(** ** End to end: the demo with a perfect predictor *)

Module EndToEnd.
Import Hanoi MDAP Demo Hooks Perfect Samples.

(** An orchestrator that was created has a valid configuration and empty
    metrics. *)
Lemma created_orchestrator_valid (k m : Z) (b : option Z) (o : Orchestrator) :
  create_orchestrator_from_config k m b = Returns o →
  1 ≤ k_margin (config o) ∧
  k_margin (config o) ≤ max_candidates (config o) ∧
  1 ≤ batch_size (config o) ∧
  metrics o = empty_metrics.
Proof.
  unfold create_orchestrator_from_config, new_MDAPConfig, batch_size.
  repeat case_bool_decide; destruct b as [x|]; simpl;
    repeat case_bool_decide; try done;
    intros [= <-]; simpl; repeat split; lia.
Qed.

(** On every state of the optimal path the perfect predictor gives the
    optimal move and its outcome, and the validator accepts that answer. *)
Lemma perfect_on_path :
  Forall (λ e : Pegs * HanoiMove * Pegs,
            e.1.1 ≠ default_goal_pegs ∧
            (∀ u, (perfect_predict u e.1.1).1
                  = Some {| cand_move := Some e.1.2;
                            cand_state := Some e.2 |}) ∧
            validate (Key:=Pegs) e.1.1
              {| cand_move := Some e.1.2; cand_state := Some e.2 |} = valid)
         reference_path.
Proof.
  vm_compute.
  repeat (constructor; [split; [discriminate|split; [intros; reflexivity|reflexivity]]|]).
  constructor.
Qed.

Lemma reference_hops :
  zip (default_initial_pegs :: reference_path.*2) reference_path.*2
  = (λ e : Pegs * HanoiMove * Pegs, (e.1.1, e.2)) <$> reference_path.
Proof. reflexivity. Qed.

Lemma reference_path_ends_at_goal :
  last (default_initial_pegs :: reference_path.*2) = Some default_goal_pegs.
Proof. reflexivity. Qed.

(** A flagged decision does not stop the run.  With a cap of 4 samples the
    wavering predictor leaves a tie of 2 against 2: the step is flagged as a
    tie, the leader is applied and the loop goes on to step 1. *)
Example flagged_step_continues :
  let o := {| config := {| k_margin := 3; max_candidates := 4;
                           batch_escalation_size := None |};
              metrics := empty_metrics |} in
  let ctx := initial_context (Move:=HanoiMove) default_settings in
  ∃ ctx' trace' vs',
    loop_body (voting_call (Key:=Pegs) validate wavering_predict)
              ctx (initial_trace ctx) (o, false)
    = Continue ctx' trace' vs' ∧
    step ctx' = 1 ∧ pegs ctx' ≠ pegs ctx ∧
    samples_per_step (hooks_metrics vs') = [4] ∧
    red_flags_by_reason (hooks_metrics vs') = {[tie := 1]}.
Proof.
  intros o ctx. vm_compute. eexists _, _, _.
  split; [reflexivity|]. repeat split. discriminate.
Qed.

(** A step without any valid candidate has no leader: the voting call has
    no result and the loop ends there, with the flag on record. *)
Example step_without_candidates_halts :
  let o := {| config := {| k_margin := 3; max_candidates := 4;
                           batch_escalation_size := None |};
              metrics := empty_metrics |} in
  let ctx := initial_context (Move:=HanoiMove) default_settings in
  ∃ vs',
    loop_body (voting_call (Key:=Pegs) validate silent_predict)
              ctx (initial_trace ctx) (o, ())
    = Break ctx (initial_trace ctx) vs' ∧
    samples_per_step (hooks_metrics vs') = [4] ∧
    red_flags_by_reason (hooks_metrics vs') = {[no_valid_candidates := 1]}.
Proof. intros o ctx. vm_compute. eexists. repeat split. Qed.

Section Perfect.
Variable cfg : MDAPConfig.
Hypothesis margin_positive : 1 ≤ k_margin cfg.
Hypothesis cap_reachable : k_margin cfg ≤ max_candidates cfg.
Hypothesis batch_positive : 1 ≤ batch_size cfg.

Lemma voting_call_perfect (s s' : Pegs) (m : HanoiMove)
    (vs : Orchestrator * unit) (prev : option HanoiMove) :
  (∀ u, (perfect_predict u s).1
        = Some {| cand_move := Some m; cand_state := Some s' |}) →
  validate (Key:=Pegs) s {| cand_move := Some m; cand_state := Some s' |}
  = valid →
  unflagged cfg vs →
  ∃ r vs',
    voting_call (Key:=Pegs) validate perfect_predict vs
      {| in_pegs := s; in_previous_move := prev |} = (Some r, vs') ∧
    predicted_state r = Some s' ∧ unflagged cfg vs'.
Proof.
  intros Hp Hv (Hc & Ht & Hr). unfold voting_call. simpl.
  destruct (UnanimousFacts.orchestrator_step_unanimous (Key:=Pegs)
              validate perfect_predict s s' m cfg Hp Hv
              margin_positive cap_reachable batch_positive vs.1 vs.2 Hc)
    as (d & o' & p' & -> & Hs & Hm & _ & _ & Hc' & Ht' & Hr').
  rewrite Hs. eexists _, _. split; [reflexivity|]. split; [done|].
  repeat split; simpl; congruence.
Qed.

End Perfect.

(** C9.  With the default settings (initial state [[3,2,1],[],[]], goal
    [[],[3,2,1],[]]) and a budget of 20 steps, the demo driven by an
    orchestrator of any valid configuration over a perfect predictor reaches
    the goal in exactly 7 steps: [run] reports [solved], 7 steps, the goal
    as final state, a trace of 8 entries, and no red flag. *)
Theorem perfect_run_solves_in_seven (k m : Z) (b : option Z)
    (o : Orchestrator) :
  create_orchestrator_from_config k m b = Returns o →
  ∃ r, run (voting_call (Key:=Pegs) validate perfect_predict) hooks_metrics
           default_settings (o, ()) = Some r ∧
       r_solved r = true ∧
       r_total_steps r = 7 ∧
       r_final_state r = default_goal_pegs ∧
       length (r_trace r) = 8%nat ∧
       total_red_flags (r_metrics r) = 0 ∧
       red_flags_by_reason (r_metrics r) = ∅.
Proof.
  intros Ho.
  destruct (created_orchestrator_valid _ _ _ _ Ho) as (Hk & Hm & Hb & He).
  unfold run, run_with.
  set (ctx := initial_context (Move:=HanoiMove) default_settings).
  destruct (DemoFacts.run_follows_path
              (voting_call (Key:=Pegs) validate perfect_predict)
              (unflagged (config o)) reference_path.*2
              default_initial_pegs ctx (initial_trace ctx) (o, ())
              (Z.to_nat step_budget))
    as (c & t & v & Hrun & Hpegs & Hsolved & Hstep & Hlen & Hflag
        & Htotal & Hreasons).
  - reflexivity.
  - unfold unflagged. simpl. by rewrite He.
  - rewrite reference_hops. apply Forall_fmap.
    eapply Forall_impl; [apply perfect_on_path|].
    intros [[s mv] s'] (Hne & Hp & Hv). simpl in *. split; [exact Hne|].
    intros vs prev HI.
    by apply (voting_call_perfect (config o) Hk Hm Hb s s' mv).
  - exact reference_path_ends_at_goal.
  - by vm_compute.
  - vm_compute. lia.
  - rewrite Hrun. eexists. split; [reflexivity|]. simpl.
    repeat split; try done.
Qed.

Lemma perfect_run_solves_in_seven_witness :
  ∃ r, run (voting_call (Key:=Pegs) validate perfect_predict) hooks_metrics
           default_settings
           ({| config := {| k_margin := 3; max_candidates := 10;
                            batch_escalation_size := None |};
               metrics := empty_metrics |}, ()) = Some r ∧
       r_solved r = true ∧
       r_total_steps r = 7 ∧
       r_final_state r = default_goal_pegs ∧
       length (r_trace r) = 8%nat ∧
       total_red_flags (r_metrics r) = 0 ∧
       red_flags_by_reason (r_metrics r) = ∅.
Proof. apply (perfect_run_solves_in_seven 3 10 None). reflexivity. Defined.

End EndToEnd.

(** ** More on the run loop: what a finished run guarantees *)

Module RunFacts.
Import MDAP Demo Probe.

Section LoopRule.
Context {Move VS : Type}.
Variable voting_call : VS → VotingInput Move → option (Result Move) * VS.

(** The loop body ends in exactly one of three ways. *)
Lemma loop_body_cases (ctx : Context Move) (trace : list (TraceEntry Move))
    (vs : VS) :
  (pegs ctx = goal ctx ∧
   loop_body voting_call ctx trace vs = Break (mark_solved ctx) trace vs) ∨
  (pegs ctx ≠ goal ctx ∧
   ∃ vs', voting_call vs {| in_pegs := pegs ctx;
                            in_previous_move := previous_move ctx |}
          = (None, vs') ∧
          loop_body voting_call ctx trace vs = Break ctx trace vs') ∨
  (pegs ctx ≠ goal ctx ∧
   ∃ r vs', voting_call vs {| in_pegs := pegs ctx;
                              in_previous_move := previous_move ctx |}
            = (Some r, vs') ∧
            loop_body voting_call ctx trace vs
            = Continue (update_context ctx r)
                       (trace ++ [trace_entry (update_context ctx r)]) vs').
Proof.
  destruct (base.decide (pegs ctx = goal ctx)) as [E|E].
  - left. split; [done|]. by apply DemoFacts.loop_body_solved.
  - right.
    destruct (voting_call vs {| in_pegs := pegs ctx;
                                in_previous_move := previous_move ctx |})
      as [[r|] vs'] eqn:Hv.
    + right. split; [done|]. exists r, vs'. split; [done|].
      by apply DemoFacts.loop_body_some.
    + left. split; [done|]. exists vs'. split; [done|].
      by apply DemoFacts.loop_body_none.
Qed.

(** The proof rule of the [while] loop: an invariant [Q] that holds when the
    loop is entered and is kept by every iteration that continues gives the
    postcondition [R], provided [R] follows on each of the ways out. *)
Lemma run_loop_rule
    (Q R : Context Move → list (TraceEntry Move) → VS → Prop) :
  (∀ ctx trace vs,
     Q ctx trace vs → ¬ step ctx < step_budget → R ctx trace vs) →
  (∀ ctx trace vs,
     Q ctx trace vs → step ctx < step_budget →
     match loop_body voting_call ctx trace vs with
     | Break c t v => R c t v
     | Continue c t v => Q c t v
     end) →
  ∀ fuel ctx trace vs c t v,
    Q ctx trace vs →
    run_loop voting_call fuel ctx trace vs = Some (c, t, v) →
    R c t v.
Proof.
  intros Hexit Hbody.
  induction fuel as [|fuel IH]; intros ctx trace vs c t v HQ; simpl;
    case_bool_decide as Hlt; try done.
  - intros [= <- <- <-]. by apply Hexit.
  - specialize (Hbody ctx trace vs HQ Hlt).
    destruct (loop_body voting_call ctx trace vs) as [c1 t1 v1|c1 t1 v1].
    + by intros [= <- <- <-].
    + by apply IH.
  - intros [= <- <- <-]. by apply Hexit.
Qed.

(** The log of [logged] is an observer: erasing it gives back the run of
    the plain voting call. *)
Lemma run_loop_logged (fuel : nat) :
  ∀ ctx trace vs log,
    match run_loop (logged voting_call) fuel ctx trace (vs, log) with
    | Some (c, t, (v, _)) =>
        run_loop voting_call fuel ctx trace vs = Some (c, t, v)
    | None => run_loop voting_call fuel ctx trace vs = None
    end.
Proof.
  induction fuel as [|fuel IH]; intros ctx trace vs log; simpl;
    case_bool_decide as Hlt; try done.
  unfold loop_body, logged. simpl. destruct (goal_reached ctx); [done|].
  destruct (voting_call vs _) as [[r|] vs']; [|done]. apply IH.
Qed.

End LoopRule.

Section Run.
Context {Move VS : Type}.
Variable voting_call : VS → VotingInput Move → option (Result Move) * VS.
Variable hooks_metrics : VS → MDAPMetrics.

(** A report comes from a finished loop. *)
Lemma run_Some (hanoi_config : HanoiSettings) (vs : VS) (r : Report Move) :
  run voting_call hooks_metrics hanoi_config vs = Some r →
  ∃ c t v,
    run_loop voting_call (Z.to_nat step_budget)
             (initial_context hanoi_config)
             (initial_trace (initial_context hanoi_config)) vs
    = Some (c, t, v) ∧
    r = report hooks_metrics (c, t, v).
Proof.
  unfold run, run_with. intros Hr. apply fmap_Some in Hr as ([[c t] v] & ? & ?).
  by exists c, t, v.
Qed.

(** X1.  A run reports [solved] exactly when its final state is the goal
    and the goal was found before the budget ran out: a goal reached by the
    20th step itself is reported as unsolved. *)
Theorem solved_iff_goal_within_budget (hanoi_config : HanoiSettings)
    (vs : VS) (r : Report Move) :
  run voting_call hooks_metrics hanoi_config vs = Some r →
  (r_solved r = true ↔
   r_final_state r = goal (initial_context (Move:=Move) hanoi_config) ∧
   r_total_steps r < step_budget).
Proof.
  intros Hr. apply run_Some in Hr as (c & t & v & Hrun & ->). simpl.
  set (g := goal (initial_context (Move:=Move) hanoi_config)).
  revert Hrun.
  apply (run_loop_rule voting_call
           (λ ctx _ _, solved ctx = false ∧ goal ctx = g)
           (λ c _ _, solved c = true ↔ pegs c = g ∧ step c < step_budget)).
  - intros ctx trace vs' [Hs Hg] Hlt. rewrite Hs. split; [done|tauto].
  - intros ctx trace vs' [Hs Hg] Hlt.
    destruct (loop_body_cases voting_call ctx trace vs')
      as [[E ->]|[[E (v' & _ & ->)]|[E (r & v' & _ & ->)]]]; simpl.
    + split; [intros _; split; congruence|done].
    + rewrite Hs. split; [done|]. intros [Hp _]. congruence.
    + done.
  - done.
Qed.

(** X2.  The steps recorded in the trace are 0, 1, 2, ... up to the total
    number of steps, one entry for each, in order. *)
Theorem trace_steps_are_consecutive (hanoi_config : HanoiSettings)
    (vs : VS) (r : Report Move) :
  run voting_call hooks_metrics hanoi_config vs = Some r →
  t_step <$> r_trace r = seqZ 0 (r_total_steps r + 1).
Proof.
  intros Hr. apply run_Some in Hr as (c & t & v & Hrun & ->). simpl.
  revert Hrun.
  apply (run_loop_rule voting_call
           (λ ctx trace _,
              0 ≤ step ctx ∧ t_step <$> trace = seqZ 0 (step ctx + 1))
           (λ c t _, t_step <$> t = seqZ 0 (step c + 1))).
  - by intros ctx trace vs' [_ Ht] _.
  - intros ctx trace vs' [H0 Ht] Hlt.
    destruct (loop_body_cases voting_call ctx trace vs')
      as [[E ->]|[[E (v' & _ & ->)]|[E (r & v' & _ & ->)]]]; simpl;
      try done.
    split; [lia|]. rewrite fmap_app, Ht. simpl.
    rewrite (seqZ_app 0 (step ctx + 1) 1) by lia. done.
  - split; [done|reflexivity].
Qed.

(** X3.  The last entry of the trace is the final state of the run, at the
    final step count. *)
Theorem trace_ends_with_final_state (hanoi_config : HanoiSettings)
    (vs : VS) (r : Report Move) :
  run voting_call hooks_metrics hanoi_config vs = Some r →
  ∃ e, last (r_trace r) = Some e ∧
       t_pegs e = r_final_state r ∧ t_step e = r_total_steps r.
Proof.
  intros Hr. apply run_Some in Hr as (c & t & v & Hrun & ->). simpl.
  revert Hrun.
  apply (run_loop_rule voting_call
           (λ ctx trace _,
              ∃ e, last trace = Some e ∧
                   t_pegs e = pegs ctx ∧ t_step e = step ctx)
           (λ c t _,
              ∃ e, last t = Some e ∧
                   t_pegs e = pegs c ∧ t_step e = step c)).
  - done.
  - intros ctx trace vs' HQ Hlt.
    destruct (loop_body_cases voting_call ctx trace vs')
      as [[E ->]|[[E (v' & _ & ->)]|[E (r & v' & _ & ->)]]]; try done.
    eexists. rewrite last_snoc. split; [done|]. simpl.
    by rewrite DemoFacts.copy_pegs_id.
  - eexists. split; [reflexivity|]. simpl.
    by rewrite DemoFacts.copy_pegs_id.
Qed.

(** X4.  The trace starts with the initial state at step 0, an entry
    without a move; the trace only grows behind it, and every later entry
    has a move (which may be [None]). *)
Theorem trace_starts_with_initial_state (hanoi_config : HanoiSettings)
    (vs : VS) (r : Report Move) :
  run voting_call hooks_metrics hanoi_config vs = Some r →
  ∃ rest,
    r_trace r
    = {| t_pegs := default default_initial_pegs
                           (cfg_initial_pegs hanoi_config);
         t_step := 0; t_move := None |} :: rest ∧
    Forall (λ e, is_Some (t_move e)) rest.
Proof.
  intros Hr. apply run_Some in Hr as (c & t & v & Hrun & ->). simpl.
  set (e0 := {| t_pegs := default default_initial_pegs
                                  (cfg_initial_pegs hanoi_config);
                t_step := 0; t_move := @None (option Move) |}).
  revert Hrun.
  apply (run_loop_rule voting_call
           (λ _ trace _,
              ∃ rest, trace = e0 :: rest ∧
                      Forall (λ e, is_Some (t_move e)) rest)
           (λ _ t _,
              ∃ rest, t = e0 :: rest ∧
                      Forall (λ e, is_Some (t_move e)) rest)).
  - done.
  - intros ctx trace vs' (rest & -> & Hrest) Hlt.
    destruct (loop_body_cases voting_call ctx (e0 :: rest) vs')
      as [[E ->]|[[E (v' & _ & ->)]|[E (r & v' & _ & ->)]]];
      try by exists rest.
    eexists. split; [reflexivity|]. apply Forall_app. split; [done|].
    apply Forall_singleton. by eexists.
  - exists []. split; [|done]. unfold initial_trace, initial_context, e0.
    simpl. by rewrite !DemoFacts.copy_pegs_id.
Qed.

(** X5.  A run that starts at its goal is over at once: it reports
    [solved] after 0 steps with the one-entry trace, and the voting call is
    never used, so the metrics are those of the untouched hooks. *)
Theorem run_from_goal (hanoi_config : HanoiSettings) (vs : VS) :
  let ctx := initial_context (Move:=Move) hanoi_config in
  pegs ctx = goal ctx →
  run voting_call hooks_metrics hanoi_config vs
  = Some {| r_trace := initial_trace ctx; r_final_state := goal ctx;
            r_solved := true; r_total_steps := 0;
            r_metrics := hooks_metrics vs |}.
Proof.
  intros ctx E. unfold run, run_with. fold ctx. simpl.
  rewrite (DemoFacts.loop_body_solved voting_call ctx _ vs E). simpl.
  do 2 f_equal. exact E.
Qed.

(** X6.  A voting call that never supplies a predicted state cannot move
    the pegs: the final state and every trace entry show the initial pegs,
    and the run is solved only if it started at the goal. *)
Theorem run_without_predictions (hanoi_config : HanoiSettings) (vs : VS)
    (r : Report Move) :
  (∀ vs input_data res vs',
     voting_call vs input_data = (Some res, vs') →
     predicted_state res = None) →
  run voting_call hooks_metrics hanoi_config vs = Some r →
  let ctx := initial_context (Move:=Move) hanoi_config in
  r_final_state r = pegs ctx ∧
  Forall (λ e, t_pegs e = pegs ctx) (r_trace r) ∧
  r_solved r = goal_reached ctx.
Proof.
  intros Hno Hr ctx. apply run_Some in Hr as (c & t & v & Hrun & ->).
  fold ctx in Hrun.
  assert (Hinit : pegs ctx = pegs ctx ∧ goal ctx = goal ctx ∧
                  solved ctx = false ∧ 0 ≤ step ctx ∧
                  (step ctx = 0 ∨ pegs ctx ≠ goal ctx) ∧
                  Forall (λ e, t_pegs e = pegs ctx) (initial_trace ctx)).
  { repeat split; try done; [by left|].
    apply Forall_singleton. simpl. by rewrite DemoFacts.copy_pegs_id. }
  clearbody ctx. simpl. revert Hinit Hrun.
  apply (run_loop_rule voting_call
           (λ c trace _,
              pegs c = pegs ctx ∧ goal c = goal ctx ∧ solved c = false ∧
              0 ≤ step c ∧ (step c = 0 ∨ pegs ctx ≠ goal ctx) ∧
              Forall (λ e, t_pegs e = pegs ctx) trace)
           (λ c t _,
              pegs c = pegs ctx ∧
              Forall (λ e, t_pegs e = pegs ctx) t ∧
              solved c = goal_reached ctx)).
  - intros c1 trace vs' (Hp & Hg & Hs & H0 & Hne & Ht) Hlt.
    repeat split; try done. rewrite Hs. symmetry.
    apply DemoFacts.goal_reached_false. unfold step_budget in Hlt.
    destruct Hne; [lia|done].
  - intros c1 trace vs' (Hp & Hg & Hs & H0 & Hne & Ht) Hlt.
    destruct (loop_body_cases voting_call c1 trace vs')
      as [[E ->]|[[E (v' & _ & ->)]|[E (res & v' & Hv & ->)]]]; simpl.
    + repeat split; try done. symmetry.
      apply DemoFacts.goal_reached_true. congruence.
    + repeat split; try done. rewrite Hs. symmetry.
      apply DemoFacts.goal_reached_false. congruence.
    + rewrite (Hno _ _ _ _ Hv). simpl.
      repeat split; try done; try lia.
      * right. congruence.
      * apply Forall_app. split; [done|]. apply Forall_singleton. simpl.
        rewrite (Hno _ _ _ _ Hv). simpl. by rewrite DemoFacts.copy_pegs_id.
Qed.

(** What [logged] adds to the log. *)
Lemma logged_log (s s' : VS * list (VotingInput Move))
    (input_data : VotingInput Move) (res : option (Result Move)) :
  logged voting_call s input_data = (res, s') →
  s'.2 = s.2 ++ [input_data].
Proof.
  unfold logged. destruct (voting_call s.1 input_data) as [r vs'].
  by intros [= _ <-].
Qed.

(** X7.  The number of voting calls of a run is its number of steps, plus
    one for the round without a result when that is how the run ended; it
    never exceeds the budget of 20. *)
Theorem voting_call_count (hanoi_config : HanoiSettings) (vs : VS)
    (c : Context Move) (t : list (TraceEntry Move)) (v : VS)
    (log : list (VotingInput Move)) :
  run_loop (logged voting_call) (Z.to_nat step_budget)
           (initial_context hanoi_config)
           (initial_trace (initial_context hanoi_config)) (vs, [])
  = Some (c, t, (v, log)) →
  run voting_call hooks_metrics hanoi_config vs
  = Some (report hooks_metrics (c, t, v)) ∧
  Z.of_nat (length log)
  = step c + (if solved c || bool_decide (step_budget ≤ step c)
              then 0 else 1) ∧
  (length log ≤ 20)%nat.
Proof.
  intros Hrun. split.
  { pose proof (run_loop_logged voting_call (Z.to_nat step_budget)
                  (initial_context hanoi_config)
                  (initial_trace (initial_context hanoi_config)) vs [])
      as He.
    rewrite Hrun in He. unfold run, run_with. by rewrite He. }
  cut (0 ≤ step c ≤ step_budget ∧
       Z.of_nat (length log)
       = step c + (if solved c || bool_decide (step_budget ≤ step c)
                   then 0 else 1)).
  { unfold step_budget. intros [Hb Hl]. split; [done|].
    destruct (solved c); simpl in Hl; [lia|].
    case_bool_decide; lia. }
  refine (run_loop_rule (logged voting_call)
            (λ ctx _ s,
               solved ctx = false ∧ 0 ≤ step ctx ≤ step_budget ∧
               Z.of_nat (length s.2) = step ctx)
            (λ c _ s,
               0 ≤ step c ≤ step_budget ∧
               Z.of_nat (length s.2)
               = step c + (if solved c || bool_decide (step_budget ≤ step c)
                           then 0 else 1))
            _ _ _ _ _ _ _ _ _ _ Hrun).
  - intros ctx trace s (Hs & Hb & Hl) Hlt. split; [done|].
    rewrite Hs, bool_decide_eq_true_2 by lia. simpl. lia.
  - intros ctx trace s (Hs & Hb & Hl) Hlt.
    destruct (loop_body_cases (logged voting_call) ctx trace s)
      as [[E ->]|[[E (s' & Hv & ->)]|[E (r & s' & Hv & ->)]]]; simpl.
    + split; [lia|]. lia.
    + apply logged_log in Hv. rewrite Hv, length_app, Hs. simpl.
      rewrite bool_decide_eq_false_2 by lia. lia.
    + apply logged_log in Hv. rewrite Hv, length_app. simpl.
      unfold step_budget in *. split; [done|]. lia.
  - split; [done|]. split; [by vm_compute|done].
Qed.

(** X8.  Every voting call is asked about the state the trace shows at that
    moment: the inputs of the calls, in order, are the pegs and the move of
    the first entries of the trace, the first call being handed the initial
    pegs and no previous move. *)
Theorem voting_inputs_follow_trace (hanoi_config : HanoiSettings) (vs : VS)
    (c : Context Move) (t : list (TraceEntry Move)) (v : VS)
    (log : list (VotingInput Move)) :
  run_loop (logged voting_call) (Z.to_nat step_budget)
           (initial_context hanoi_config)
           (initial_trace (initial_context hanoi_config)) (vs, [])
  = Some (c, t, (v, log)) →
  log = entry_input <$> take (length log) t.
Proof.
  intros Hrun.
  refine (run_loop_rule (logged voting_call)
            (λ ctx trace s,
               ∃ l e, trace = l ++ [e] ∧ s.2 = entry_input <$> l ∧
                      entry_input e
                      = {| in_pegs := pegs ctx;
                           in_previous_move := previous_move ctx |})
            (λ _ t s, s.2 = entry_input <$> take (length s.2) t)
            _ _ _ _ _ _ _ _ _ _ Hrun);
    [| |exists [], {| t_pegs :=
                       copy_pegs
                         (pegs (initial_context (Move:=Move) hanoi_config));
                     t_step := 0; t_move := None |};
        repeat split; unfold entry_input; simpl;
        by rewrite !DemoFacts.copy_pegs_id].
  - intros ctx trace s (l & e & -> & Hl & He) _.
    rewrite Hl, length_fmap, take_app_length. done.
  - intros ctx trace s (l & e & -> & Hl & He) _.
    destruct (loop_body_cases (logged voting_call) ctx (l ++ [e]) s)
      as [[E ->]|[[E (s' & Hv & ->)]|[E (r & s' & Hv & ->)]]].
    + rewrite Hl, length_fmap, take_app_length. done.
    + apply logged_log in Hv. rewrite Hv, Hl, <- He, <- fmap_snoc.
      by rewrite length_fmap, firstn_all.
    + apply logged_log in Hv.
      exists (l ++ [e]), (trace_entry (update_context ctx r)).
      split; [done|]. split.
      * by rewrite Hv, Hl, <- He, <- fmap_snoc.
      * unfold entry_input. simpl. by rewrite DemoFacts.copy_pegs_id.
Qed.




End Run.

Import Samples.


Lemma solved_iff_goal_within_budget_witness :
  ∃ r, run ticking_voting no_metrics ticking_settings () = Some r ∧
       (r_solved r = true ↔
        r_final_state r = goal (initial_context (Move:=unit) ticking_settings)
        ∧ r_total_steps r < step_budget).
Proof.
  eexists. split; [vm_compute; reflexivity|].
  apply (solved_iff_goal_within_budget ticking_voting no_metrics
           ticking_settings ()).
  vm_compute. reflexivity.
Defined.

Lemma trace_steps_are_consecutive_witness :
  ∃ r, run idle_voting no_metrics default_settings () = Some r ∧
       t_step <$> r_trace r = seqZ 0 (r_total_steps r + 1).
Proof.
  eexists. split; [reflexivity|].
  apply (trace_steps_are_consecutive idle_voting no_metrics
           default_settings ()).
  reflexivity.
Defined.

Lemma trace_ends_with_final_state_witness :
  ∃ r, run ticking_voting no_metrics ticking_settings () = Some r ∧
       ∃ e, last (r_trace r) = Some e ∧
            t_pegs e = r_final_state r ∧ t_step e = r_total_steps r.
Proof.
  eexists. split; [vm_compute; reflexivity|].
  apply (trace_ends_with_final_state ticking_voting no_metrics
           ticking_settings ()).
  vm_compute. reflexivity.
Defined.

Lemma trace_starts_with_initial_state_witness :
  ∃ r, run ticking_voting no_metrics ticking_settings () = Some r ∧
       ∃ rest,
         r_trace r
         = {| t_pegs := [[0]]; t_step := 0; t_move := None |} :: rest ∧
         Forall (λ e, is_Some (t_move e)) rest.
Proof.
  eexists. split; [vm_compute; reflexivity|].
  apply (trace_starts_with_initial_state ticking_voting no_metrics
           ticking_settings ()).
  vm_compute. reflexivity.
Defined.

Lemma run_from_goal_witness :
  run ticking_voting no_metrics solved_settings ()
  = Some {| r_trace := [{| t_pegs := default_goal_pegs; t_step := 0;
                           t_move := None |}];
            r_final_state := default_goal_pegs;
            r_solved := true; r_total_steps := 0;
            r_metrics := empty_metrics |}.
Proof.
  apply (run_from_goal ticking_voting no_metrics solved_settings ()).
  reflexivity.
Defined.

Lemma run_without_predictions_witness :
  ∃ r, run idle_voting no_metrics default_settings () = Some r ∧
       r_final_state r = default_initial_pegs ∧
       Forall (λ e, t_pegs e = default_initial_pegs) (r_trace r) ∧
       r_solved r = false.
Proof.
  eexists. split; [reflexivity|].
  apply (run_without_predictions idle_voting no_metrics default_settings ()).
  - intros vs input_data res vs' [= <- _]. reflexivity.
  - reflexivity.
Defined.

Lemma voting_call_count_witness :
  ∃ c t v log,
    run_loop (logged silent_voting) (Z.to_nat step_budget)
             (initial_context default_settings)
             (initial_trace (initial_context default_settings)) ((), [])
    = Some (c, t, (v, log)) ∧
    run silent_voting no_metrics default_settings ()
    = Some (report no_metrics (c, t, v)) ∧
    step c = 0 ∧ Z.of_nat (length log) = 1.
Proof.
  eexists _, _, _, _. split; [reflexivity|].
  destruct (voting_call_count silent_voting no_metrics default_settings ()
              _ _ _ _ eq_refl) as (Hrun & Hcount & _).
  split; [exact Hrun|]. split; [reflexivity|exact Hcount].
Defined.

Lemma voting_inputs_follow_trace_witness :
  ∃ c t v log,
    run_loop (logged ticking_voting) (Z.to_nat step_budget)
             (initial_context ticking_settings)
             (initial_trace (initial_context ticking_settings)) ((), [])
    = Some (c, t, (v, log)) ∧
    length log = 20%nat ∧
    log = entry_input <$> take (length log) t.
Proof.
  eexists _, _, _, _. split; [vm_compute; reflexivity|].
  split; [reflexivity|].
  eapply (voting_inputs_follow_trace ticking_voting ticking_settings ()).
  vm_compute. reflexivity.
Defined.



End RunFacts.

